(** * Peg solitaire: a shallow embedding of [scripts.js]

    The game core of the script (the memento, the originator, the caretaker
    and the state-changing part of the UI handlers) is translated to Rocq
    functions, and the properties of the design document are stated and
    proved, or refuted, over them.

    Conventions of the embedding.
    - JS numbers that serve as coordinates and array indices are integers,
      modelled in [Z]; counters are in [nat].
    - A cell slot holds ['-'], [0] or [1], or no cell value at all.  The
      script inspects cells only with [===] against these three constants,
      which cannot tell a hole, [undefined] and [null] apart: the three are
      one value here, [None].
    - The state objects ([originator.state] and the [state] of each memento)
      live in a heap and are named by references, so that what
      [ConcreteMemento.getState] hands out is the object itself and not a
      copy of it.  Below a state object nothing is shared, and the board of
      a state object is a value here: whenever the script assigns
      [state.board] or builds the state of a memento, it builds new arrays
      down to the cells ([map] with a spread, the JSON round trip), and no
      method keeps a reference to a board or to a row anywhere else.

    The file has three parts: the embedding of the script, the vocabulary
    of the properties, and the properties with their proofs. *)

From Stdlib Require Import Ascii.
From stdpp Require Import base option list gmap strings pretty.

Local Open Scope Z_scope.

(** ** Cells and JS arrays *)

(** [CELL_TYPES]: ['-'], [0] and [1]. *)
Inductive Cell := INVALID | EMPTY | PEG.

#[global] Instance Cell_eq_dec : EqDecision Cell.
Proof. solve_decision. Defined.

(** [v === CELL_TYPES.PEG] and [v === CELL_TYPES.EMPTY] for a value read
    from a row. *)
Definition is_peg (v : option Cell) : bool := bool_decide (v = Some PEG).
Definition is_empty (v : option Cell) : bool := bool_decide (v = Some EMPTY).

(** A row of the board is a JS array: its elements, where [None] is a slot
    without a cell value, and the properties it may have acquired under keys
    that are not array indices (negative integers).  Every non-negative
    integer counts as an array index. *)
Record JsArray := mkArr { elems : list (option Cell); props : gmap Z Cell }.

Definition arr_of_list (l : list Cell) : JsArray := mkArr (Some <$> l) ∅.

(** [a.length] *)
Definition arr_length (a : JsArray) : nat := length (elems a).

(** [a[i]]: [None] stands for [undefined]. *)
Definition arr_get (a : JsArray) (i : Z) : option Cell :=
  if i <? 0 then props a !! i else mjoin (elems a !! Z.to_nat i).

(** [a[i] = v]: inside the array the slot is overwritten; at or beyond its
    end the array grows up to [i], leaving holes in between; a negative key
    becomes an ordinary property. *)
Definition arr_set (a : JsArray) (i : Z) (v : Cell) : JsArray :=
  if i <? 0 then mkArr (elems a) (<[i := v]> (props a))
  else
    let n := Z.to_nat i in
    if (n <? length (elems a))%nat
    then mkArr (<[n := Some v]> (elems a)) (props a)
    else mkArr (elems a ++ replicate (n - length (elems a)) None ++ [Some v])
               (props a).

(** [[...a]]: a new array with the elements of [a]; properties that are not
    elements are not copied.  [JSON.parse(JSON.stringify(a))] yields the same
    array. *)
Definition arr_copy (a : JsArray) : JsArray := mkArr (elems a) ∅.

(** [board[r]] for the outer array, which the script never writes by
    index. *)
Definition board_row (b : list JsArray) (r : Z) : option JsArray :=
  if r <? 0 then None else b !! Z.to_nat r.

(** [board[r]?.[c]] *)
Definition cell_at (b : list JsArray) (r c : Z) : option Cell :=
  row ← board_row b r; arr_get row c.

(** [board.flat().filter(v => v === CELL_TYPES.PEG).length], the peg count of
    [ConcreteMemento.getName]. *)
Definition countPegs (b : list JsArray) : nat :=
  length (filter (λ v, v = Some PEG) (concat (elems <$> b))).

(** [DIRECTIONS], as pairs [(dx, dy)]. *)
Definition DIRECTIONS : list (Z * Z) := [(0, 2); (0, -2); (2, 0); (-2, 0)].

(** ** The state object and the programs that act on it *)

(** [{ board, selectedPeg }]; [selectedPeg] is [null] or [{ r, c }]. *)
Record State := mkState {
  board : list JsArray;
  selectedPeg : option (Z * Z)
}.

(** A method of the originator is a program over the accesses it makes to
    [this.state]: the control flow is the method's, and the accesses are
    explicit, so that a program can be run on a state object and the cells
    it touches can be listed. *)
Inductive Prog (A : Type) : Type :=
  | Ret (a : A)
  | Throw
  | ReadState (k : State → Prog A)
  | SetSelected (v : option (Z * Z)) (k : Prog A)
  | SetBoard (b : list JsArray) (k : Prog A)
  | ReadCell (r c : Z) (k : option Cell → Prog A)
  | ReadCellOpt (r c : Z) (k : option Cell → Prog A)
  | WriteCell (r c : Z) (v : Cell) (k : Prog A).
Arguments Ret {A} a.
Arguments Throw {A}.
Arguments ReadState {A} k.
Arguments SetSelected {A} v k.
Arguments SetBoard {A} b k.
Arguments ReadCell {A} r c k.
Arguments ReadCellOpt {A} r c k.
Arguments WriteCell {A} r c v k.

Fixpoint bind {A B} (p : Prog A) (f : A → Prog B) : Prog B :=
  match p with
  | Ret a => f a
  | Throw => Throw
  | ReadState k => ReadState (λ s, bind (k s) f)
  | SetSelected v k => SetSelected v (bind k f)
  | SetBoard b k => SetBoard b (bind k f)
  | ReadCell r c k => ReadCell r c (λ x, bind (k x) f)
  | ReadCellOpt r c k => ReadCellOpt r c (λ x, bind (k x) f)
  | WriteCell r c v k => WriteCell r c v (bind k f)
  end.

Declare Scope js_scope.
Delimit Scope js_scope with js.
Notation "'let*' x ':=' m 'in' k" := (bind m (λ x, k))
  (at level 10, x pattern, m at level 100, k at level 200) : js_scope.
Notation "m ';;' k" := (bind m (λ _, k))
  (at level 100, k at level 200, right associativity) : js_scope.

(** [this.state.selectedPeg] *)
Definition get_selectedPeg : Prog (option (Z * Z)) :=
  ReadState (λ s, Ret (selectedPeg s)).
(** [this.state.selectedPeg = v] *)
Definition set_selectedPeg (v : option (Z * Z)) : Prog unit :=
  SetSelected v (Ret ()).
(** [this.state.board = b] *)
Definition set_board (b : list JsArray) : Prog unit := SetBoard b (Ret ()).
(** [this.state.board[r][c]] *)
Definition read_cell (r c : Z) : Prog (option Cell) := ReadCell r c Ret.
(** [board[r]?.[c]] on [this.state.board] *)
Definition read_cell_opt (r c : Z) : Prog (option Cell) := ReadCellOpt r c Ret.
(** [this.state.board[r][c] = v] *)
Definition write_cell (r c : Z) (v : Cell) : Prog unit :=
  WriteCell r c v (Ret ()).
(** [this.state.board.length] *)
Definition board_length : Prog nat := ReadState (λ s, Ret (length (board s))).
(** [this.state.board[r].length] *)
Definition row_length (r : nat) : Prog nat :=
  ReadState (λ s, match board s !! r with
                 | Some row => Ret (arr_length row)
                 | None => Throw
                 end).

(** A [for] loop over the items of [l] that updates the local variables
    [acc]. *)
Fixpoint for_each {A B} (l : list A) (acc : B) (body : B → A → Prog B)
    : Prog B :=
  match l with
  | [] => Ret acc
  | x :: l' => bind (body acc x) (λ acc', for_each l' acc' body)
  end.

(** How a program ends: with a value, or with the [TypeError] that JS raises
    on [undefined[c]]. *)
Inductive completion (A : Type) :=
  | Normal (a : A)
  | TypeError.
Arguments Normal {A} a.
Arguments TypeError {A}.

#[global] Instance completion_eq_dec {A} `{EqDecision A} :
  EqDecision (completion A).
Proof. solve_decision. Defined.

(** The state after [board[r][c] = v], when [board[r]] is the array [row]. *)
Definition store_cell (s : State) (r c : Z) (row : JsArray) (v : Cell)
    : State :=
  mkState (<[Z.to_nat r := arr_set row c v]> (board s)) (selectedPeg s).
Arguments store_cell : simpl never.

(** Running a program on a state object: the completion and the state the
    program leaves, also when it throws half-way. *)
Fixpoint run {A} (p : Prog A) (s : State) : completion A * State :=
  match p with
  | Ret a => (Normal a, s)
  | Throw => (TypeError, s)
  | ReadState k => run (k s) s
  | SetSelected v k => run k (mkState (board s) v)
  | SetBoard b k => run k (mkState b (selectedPeg s))
  | ReadCell r c k =>
      match board_row (board s) r with
      | Some row => run (k (arr_get row c)) s
      | None => (TypeError, s)
      end
  | ReadCellOpt r c k => run (k (cell_at (board s) r c)) s
  | WriteCell r c v k =>
      match board_row (board s) r with
      | Some row => run k (store_cell s r c row v)
      | None => (TypeError, s)
      end
  end.

Inductive Access := Read (r c : Z) | Write (r c : Z).

(** The cell accesses a program makes on a state object, in order. *)
Fixpoint accesses {A} (p : Prog A) (s : State) : list Access :=
  match p with
  | Ret _ | Throw => []
  | ReadState k => accesses (k s) s
  | SetSelected v k => accesses k (mkState (board s) v)
  | SetBoard b k => accesses k (mkState b (selectedPeg s))
  | ReadCell r c k =>
      Read r c ::
      match board_row (board s) r with
      | Some row => accesses (k (arr_get row c)) s
      | None => []
      end
  | ReadCellOpt r c k => Read r c :: accesses (k (cell_at (board s) r c)) s
  | WriteCell r c v k =>
      Write r c ::
      match board_row (board s) r with
      | Some row => accesses k (store_cell s r c row v)
      | None => []
      end
  end.

(** ** Originator: the game rules *)

Inductive Action := SELECT | MOVE_SUCCESS | NO_ACTION.

#[global] Instance Action_eq_dec : EqDecision Action.
Proof. solve_decision. Defined.

(** [Originator.tryMove].  The quotients [dr / 2] and [dc / 2] are taken only
    after the distance test, on values among [-2], [0] and [2], where the
    floating-point quotient of JS is the integer quotient. *)
Definition tryMove (fr fc tr tc : Z) : Prog bool :=
  (let dr := tr - fr in
   let dc := tc - fc in
   let isValidDistance :=
     (Z.abs dr =? 2) && (dc =? 0) || (Z.abs dc =? 2) && (dr =? 0) in
   if negb isValidDistance then Ret false else
   let mr := fr + dr / 2 in
   let mc := fc + dc / 2 in
   let* mid := read_cell mr mc in
   if negb (is_peg mid) then Ret false else
   write_cell fr fc EMPTY ;;
   write_cell mr mc EMPTY ;;
   write_cell tr tc PEG ;;
   Ret true)%js.

(** [Originator.selectCell]; [sel?.r === r && sel?.c === c] holds when the
    selection is [{ r, c }]. *)
Definition selectCell (r c : Z) : Prog Action :=
  (let* cell := read_cell r c in
   if is_peg cell then
     let* sel := get_selectedPeg in
     set_selectedPeg
       (if bool_decide (sel = Some (r, c)) then None else Some (r, c)) ;;
     Ret SELECT
   else if is_empty cell then
     let* sel := get_selectedPeg in
     match sel with
     | Some (sr, sc) =>
         let* moveResult := tryMove sr sc r c in
         if (moveResult : bool) then
           set_selectedPeg None ;; Ret MOVE_SUCCESS
         else Ret NO_ACTION
     | None => Ret NO_ACTION
     end
   else Ret NO_ACTION)%js.

Record GameStatus := mkStatus {
  isGameOver : bool;
  isWin : bool;
  pegsRemaining : nat
}.

(** [Originator.checkGameState]; the local counters are the pair
    [(pegs, possibleMoves)]. *)
Definition checkGameState : Prog GameStatus :=
  (let* nrows := board_length in
   let* counters :=
     for_each (seq 0 nrows) (0%nat, 0%nat) (λ acc r,
       let* ncols := row_length r in
       for_each (seq 0 ncols) acc (λ acc c,
         let* cell := read_cell (Z.of_nat r) (Z.of_nat c) in
         if is_peg cell then
           let* possibleMoves :=
             for_each DIRECTIONS (snd acc) (λ possibleMoves d,
               let '(dx, dy) := d in
               let nr := Z.of_nat r + dx in
               let nc := Z.of_nat c + dy in
               let mr := Z.of_nat r + dx / 2 in
               let mc := Z.of_nat c + dy / 2 in
               let* landing := read_cell_opt nr nc in
               if is_empty landing then
                 let* mid := read_cell_opt mr mc in
                 Ret (if is_peg mid then S possibleMoves else possibleMoves)
               else Ret possibleMoves) in
           Ret (S (fst acc), possibleMoves)
         else Ret acc)) in
   let pegs := fst counters in
   let possibleMoves := snd counters in
   Ret (mkStatus ((pegs =? 1)%nat || (possibleMoves =? 0)%nat)
                 (pegs =? 1)%nat
                 pegs))%js.

(** [initialBoardLayout] *)
Definition initialBoardLayout : list JsArray :=
  arr_of_list <$>
  [ [INVALID; INVALID; PEG; PEG; PEG; INVALID; INVALID];
    [INVALID; INVALID; PEG; PEG; PEG; INVALID; INVALID];
    [PEG; PEG; PEG; PEG; PEG; PEG; PEG];
    [PEG; PEG; PEG; EMPTY; PEG; PEG; PEG];
    [PEG; PEG; PEG; PEG; PEG; PEG; PEG];
    [INVALID; INVALID; PEG; PEG; PEG; INVALID; INVALID];
    [INVALID; INVALID; PEG; PEG; PEG; INVALID; INVALID] ].

(** The state object built by [new Originator(layout)], and rebuilt by
    [restartGame]: the rows of the layout are copied. *)
Definition fresh_state (layout : list JsArray) : State :=
  mkState (arr_copy <$> layout) None.

(** ** The heap of state objects, mementos, caretaker and UI *)

(** A reference to a state object: its index in the heap. *)
Definition loc := nat.

(** [ConcreteMemento]: [this.state] is a reference, [this.date] a string. *)
Record ConcreteMemento := mkMemento { m_state : loc; m_date : string }.

(** [Originator]: [this.initialLayout], which no method writes, and the
    reference [this.state]. *)
Record Originator := mkOriginator {
  initialLayout : list JsArray;
  o_state : loc
}.

(** The objects of the running script: the state objects, the originator,
    [caretaker.mementos] and [gameUI.gameStarted]. *)
Record World := mkWorld {
  heap : list State;
  originator : Originator;
  mementos : list ConcreteMemento;
  gameStarted : bool
}.

Definition set_heap (h : list State) (w : World) : World :=
  mkWorld h (originator w) (mementos w) (gameStarted w).
Definition set_mementos (ms : list ConcreteMemento) (w : World) : World :=
  mkWorld (heap w) (originator w) ms (gameStarted w).
Definition set_gameStarted (g : bool) (w : World) : World :=
  mkWorld (heap w) (originator w) (mementos w) g.

(** Handlers and the methods of the other classes act on the world. *)
Definition W (A : Type) : Type := World → completion A * World.

Definition wret {A} (a : A) : W A := λ w, (Normal a, w).
Definition wbind {A B} (m : W A) (f : A → W B) : W B :=
  λ w, match m w with
       | (Normal a, w') => f a w'
       | (TypeError, w') => (TypeError, w')
       end.

Declare Scope world_scope.
Delimit Scope world_scope with W.
Notation "'let*' x ':=' m 'in' k" := (wbind m (λ x, k))
  (at level 10, x pattern, m at level 100, k at level 200) : world_scope.
Notation "m ';;' k" := (wbind m (λ _, k))
  (at level 100, k at level 200, right associativity) : world_scope.

(** A program run on the state object that a reference names. *)
Definition on_object {A} (l : loc) (p : Prog A) : W A :=
  λ w, match heap w !! l with
       | Some s =>
           let '(res, s') := run p s in
           (res, set_heap (<[l := s']> (heap w)) w)
       | None => (TypeError, w)
       end.

(** A method of the originator: it runs on the object [this.state]. *)
Definition on_state {A} (p : Prog A) : W A :=
  λ w, on_object (o_state (originator w)) p w.

(** [JSON.parse(JSON.stringify(state))]: a new object with new arrays, the
    same cells and the same selection. *)
Definition json_clone (s : State) : State :=
  mkState (arr_copy <$> board s) (selectedPeg s).

(** [new ConcreteMemento(state)]; [date] is the clock reading
    [new Date().toISOString().slice(0, 19).replace('T', ' ')]. *)
Definition new_ConcreteMemento (state : loc) (date : string)
    : W ConcreteMemento :=
  λ w, match heap w !! state with
       | Some s =>
           (Normal (mkMemento (length (heap w)) date),
            set_heap (heap w ++ [json_clone s]) w)
       | None => (TypeError, w)
       end.

(** [ConcreteMemento.getState]: [return this.state]. *)
Definition getState (m : ConcreteMemento) : loc := m_state m.

(** [ConcreteMemento.getDate] *)
Definition getDate (m : ConcreteMemento) : string := m_date m.

(** [ConcreteMemento.getName]: the date and the peg count that the label
    is made of. *)
Definition getName (m : ConcreteMemento) (h : list State)
    : option (string * nat) :=
  s ← h !! m_state m; Some (m_date m, countPegs (board s)).

(** [Originator.save] *)
Definition save (date : string) : W ConcreteMemento :=
  λ w, new_ConcreteMemento (o_state (originator w)) date w.

(** The object behind a reference; a reference to no object would read as
    [undefined], and using that throws. *)
Definition deref (l : loc) : W State :=
  λ w, match heap w !! l with
       | Some s => (Normal s, w)
       | None => (TypeError, w)
       end.

(** [Originator.restore] *)
Definition restore (memento : ConcreteMemento) : W unit :=
  (let savedState := getState memento in
   let* saved := deref savedState in
   on_state (set_board (arr_copy <$> board saved) ;;
             set_selectedPeg (selectedPeg saved))%js)%W.

(** [Originator.restartGame] *)
Definition restartGame : W unit :=
  λ w, on_state (set_board (arr_copy <$> initialLayout (originator w)) ;;
                 set_selectedPeg None)%js w.

(** [Caretaker.backup] *)
Definition backup (date : string) : W unit :=
  (let* memento := save date in
   λ w, (Normal (), set_mementos (mementos w ++ [memento]) w))%W.

(** [Caretaker.undo] *)
Definition undo : W unit :=
  λ w, match last (mementos w) with
       | None => (Normal (), w)
       | Some memento =>
           restore memento (set_mementos (removelast (mementos w)) w)
       end.

(** [UI.checkGameStatus]: of its effects, the message and the timer are
    outside the model. *)
Definition checkGameStatus : W unit :=
  (let* status := on_state checkGameState in
   if isGameOver status
   then λ w, (Normal (), set_gameStarted false w)
   else wret ())%W.

(** [UI.handleCellClick]; [date] is the clock reading a backup would take. *)
Definition handleCellClick (date : string) (r c : Z) : W unit :=
  λ w,
  if negb (gameStarted w) then (Normal (), w) else
  (let* cell := on_state (read_cell r c) in
   let* sel := on_state get_selectedPeg in
   (if is_empty cell && bool_decide (is_Some sel)
    then backup date else wret ()) ;;
   let* result := on_state (selectCell r c) in
   if bool_decide (result ≠ NO_ACTION) then
     if bool_decide (result = MOVE_SUCCESS) then checkGameStatus
     else wret ()
   else wret ())%W w.

(** [UI.startGame] *)
Definition startGame : W unit :=
  ((λ w, (Normal (), set_gameStarted true w)) ;;
  restartGame ;;
  (λ w, (Normal (), set_mementos [] w)))%W.

(** [UI.handleStartRestart] *)
Definition handleStartRestart : W unit := startGame.

(** [UI.handleUndo] *)
Definition handleUndo : W unit := undo.

(** [UI.resetUI]; [initialUIState.gameStarted] is [false]. *)
Definition resetUI : W unit :=
  ((λ w, (Normal (), set_gameStarted false w)) ;;
   restartGame ;;
   (λ w, (Normal (), set_mementos [] w)))%W.

(** [UI.handleStop] *)
Definition handleStop : W unit := resetUI.

(** The gestures the page reacts to: a click on a cell, the start/restart,
    undo (also Ctrl+Z), tutorial and stop buttons. *)
Inductive Gesture :=
  | CellClick (date : string) (r c : Z)
  | StartRestart
  | Undo
  | Tutorial
  | Stop.

Definition handle (g : Gesture) : W unit :=
  match g with
  | CellClick date r c => handleCellClick date r c
  | StartRestart => handleStartRestart
  | Undo => handleUndo
  | Tutorial => wret ()
  | Stop => handleStop
  end.

(** A handler that throws leaves the world as it is at that point; the
    page goes on with the next gesture. *)
Definition after (w : World) (gs : list Gesture) : World :=
  foldl (λ w g, snd (handle g w)) w gs.

(** The world once the script has run: [new Originator(initialBoardLayout)],
    [new Caretaker(originator)], [new UI(originator, caretaker)]. *)
Definition initial_world : World :=
  mkWorld [fresh_state initialBoardLayout]
          (mkOriginator initialBoardLayout 0%nat) [] false.

(** ** The label of a memento and the timer display *)

(** [ConcreteMemento.getName], the label itself:
    [`${this.date} / (${pegCount} pegs left)`]. *)
Definition getName_text (m : ConcreteMemento) (h : list State)
    : option string :=
  '(date, pegCount) ← getName m h;
  Some (date +:+ " / (" +:+ pretty pegCount +:+ " pegs left)").

(** [s.padStart(n, c)] for a pad [c] of one character. *)
Definition padStart (n : nat) (c : ascii) (s : string) : string :=
  Nat.iter (n - String.length s) (String c) s.

(** [UI.updateTimer]: the text it puts on the page, from [this.startTime]
    and the reading [now] of [Date.now()], both in milliseconds.
    [Math.floor] of a quotient of integers is the floor division, and [%]
    takes the sign of the dividend. *)
Definition updateTimer (startTime now : Z) : string :=
  let elapsed := (now - startTime) / 1000 in
  let mins := padStart 2 "0"%char (pretty (elapsed / 60)) in
  let secs := padStart 2 "0"%char (pretty (Z.rem elapsed 60)) in
  mins +:+ ":" +:+ secs.

(** * Vocabulary of the properties *)

(** The position [(r, c)] names an element of the row [board[r]]. *)
Definition in_bounds (b : list JsArray) (r c : Z) : bool :=
  match board_row b r with
  | Some row => bool_decide (0 ≤ c < Z.of_nat (arr_length row))
  | None => false
  end.

(** Every row has [w] elements. *)
Definition rectangular (b : list JsArray) (w : nat) : Prop :=
  Forall (λ row, arr_length row = w) b.

(** The rows hold cells only: no holes and no properties besides the
    elements. *)
Definition is_grid (b : list JsArray) : Prop :=
  Forall (λ row, props row = ∅ ∧ Forall is_Some (elems row)) b.

(** The displacement from [(fr, fc)] to [(tr, tc)] is two cells along one
    axis and none along the other. *)
Definition jump (fr fc tr tc : Z) : Prop :=
  (Z.abs (tr - fr) = 2 ∧ tc - fc = 0) ∨ (Z.abs (tc - fc) = 2 ∧ tr - fr = 0).

#[global] Instance jump_dec fr fc tr tc : Decision (jump fr fc tr tc).
Proof. unfold jump. apply _. Defined.

(** The cell of an access is a position of the board. *)
Definition access_in_bounds (b : list JsArray) (a : Access) : bool :=
  match a with Read r c | Write r c => in_bounds b r c end.

(** What a slot adds to the peg count. *)
Definition peg_weight (v : option Cell) : nat :=
  if decide (v = Some PEG) then 1 else 0.

(** The test of the innermost loop of [checkGameState] for the peg at
    [(r, c)] and the direction [(dx, dy)]: the landing cell, two steps away,
    reads [EMPTY] and the cell between reads [PEG]. *)
Definition can_jump (b : list JsArray) (r c : Z) (d : Z * Z) : bool :=
  is_empty (cell_at b (r + d.1) (c + d.2))
  && is_peg (cell_at b (r + d.1 / 2) (c + d.2 / 2)).

(** The positions of the board in scan order, and the candidate jumps: a
    position with a direction. *)
Definition positions (b : list JsArray) : list (Z * Z) :=
  r ← seq 0 (length b);
  c ← seq 0 (from_option arr_length 0%nat (b !! r));
  [(Z.of_nat r, Z.of_nat c)].

Definition candidates (b : list JsArray) : list (Z * Z * (Z * Z)) :=
  p ← positions b; d ← DIRECTIONS; [(p, d)].

(** A candidate is an available move when its position holds a peg and the
    jump test passes. *)
Definition available (b : list JsArray) (m : Z * Z * (Z * Z)) : bool :=
  is_peg (cell_at b m.1.1 m.1.2) && can_jump b m.1.1 m.1.2 m.2.

(** The number of available moves on the whole board. *)
Definition availableMoves (b : list JsArray) : nat :=
  length (filter (λ m, available b m) (candidates b)).

(** The loops of [checkGameState] as pure steps on the counters: one
    direction, one cell, one row. *)
Definition dir_step (b : list JsArray) (r c : Z) (n : nat) (d : Z * Z) : nat :=
  if can_jump b r c d then S n else n.

Definition cell_step (b : list JsArray) (r : nat) (acc : nat * nat) (c : nat)
    : nat * nat :=
  if is_peg (cell_at b (Z.of_nat r) (Z.of_nat c))
  then (S acc.1, foldl (dir_step b (Z.of_nat r) (Z.of_nat c)) acc.2 DIRECTIONS)
  else acc.

Definition row_step (b : list JsArray) (acc : nat * nat) (r : nat)
    : nat * nat :=
  foldl (cell_step b r) acc (seq 0 (from_option arr_length 0%nat (b !! r))).

(** A legal jump on the board [b], in the words of the rules: from a
    position of the board that holds a peg, two cells along a row or a
    column, over a cell that holds a peg, onto a cell that is empty. *)
Definition legal_jump (b : list JsArray) (fr fc tr tc : Z) : Prop :=
  in_bounds b fr fc ∧ jump fr fc tr tc ∧
  cell_at b fr fc = Some PEG ∧
  cell_at b (fr + (tr - fr) / 2) (fc + (tc - fc) / 2) = Some PEG ∧
  cell_at b tr tc = Some EMPTY.

(** A candidate of the scan as a move: the position and the cell that the
    direction leads to. *)
Definition landing (m : Z * Z * (Z * Z)) : Z * Z * (Z * Z) :=
  (m.1, (m.1.1 + m.2.1, m.1.2 + m.2.2)).

(** The position holds a peg. *)
Definition peg_at (b : list JsArray) (p : Z * Z) : bool :=
  is_peg (cell_at b p.1 p.2).

(** No row has a cell value under a negative key. *)
Definition no_stray (b : list JsArray) : Prop :=
  ∀ r c, c < 0 → cell_at b r c = None.

(** The selection, when there is one, is a position that holds a peg. *)
Definition selection_on_peg (s : State) : Prop :=
  ∀ r c, selectedPeg s = Some (r, c) → cell_at (board s) r c = Some PEG.

(** The cells marked ['-'] are those of the layout. *)
Definition same_invalid (layout b : list JsArray) : Prop :=
  ∀ r c, cell_at b r c = Some INVALID ↔ cell_at layout r c = Some INVALID.

(** A state object as the script keeps it, for an originator built from
    [layout]. *)
Record good_state (layout : list JsArray) (s : State) : Prop := mkGood {
  good_stray : no_stray (board s);
  good_selection : selection_on_peg s;
  good_invalid : same_invalid layout (board s)
}.

(** What a caller can ask of the originator and the caretaker, besides the
    gestures of the page.  [ReqRestore] takes any memento, also one that is
    no longer in the history. *)
Inductive Request :=
  | ReqSelectCell (r c : Z)
  | ReqCheckGameState
  | ReqRestartGame
  | ReqSave (date : string)
  | ReqRestore (m : ConcreteMemento)
  | ReqBackup (date : string)
  | ReqUndo
  | ReqGesture (g : Gesture).

(** The world a request leaves, also when it throws. *)
Definition serve (q : Request) (w : World) : World :=
  match q with
  | ReqSelectCell r c => (on_state (selectCell r c) w).2
  | ReqCheckGameState => (on_state checkGameState w).2
  | ReqRestartGame => (restartGame w).2
  | ReqSave date => (save date w).2
  | ReqRestore m => (restore m w).2
  | ReqBackup date => (backup date w).2
  | ReqUndo => (undo w).2
  | ReqGesture g => (handle g w).2
  end.

(** The world after a sequence of requests to the script as loaded. *)
Definition reach (qs : list Request) : World :=
  foldl (λ w q, serve q w) initial_world qs.

(** The originator keeps its layout and its state object, and every state
    object of the heap, live or stored in a memento, is good. *)
Record good_world (layout : list JsArray) (w : World) : Prop := mkGoodWorld {
  gw_layout : initialLayout (originator w) = layout;
  gw_state : (o_state (originator w) < length (heap w))%nat;
  gw_heap : Forall (good_state layout) (heap w)
}.

(** The action keeps a good world good. *)
Definition preserves (layout : list JsArray) {A} (m : W A) : Prop :=
  ∀ w res w', good_world layout w → m w = (res, w') → good_world layout w'.

(** The action [m] leaves the state object at [l], which is not the
    originator's, as it is. *)
Definition keeps (l : loc) {A} (m : W A) : Prop :=
  ∀ w res w',
    (l < length (heap w))%nat → l ≠ o_state (originator w) →
    m w = (res, w') →
    heap w' !! l = heap w !! l ∧ originator w' = originator w ∧
    (length (heap w) ≤ length (heap w'))%nat.

(** Anything that acts on the live state: a program run as a method of the
    originator, such as [selectCell] or a direct [tryMove], or a request. *)
Inductive Mutation : Type :=
  | ByMethod (A : Type) (p : Prog A)
  | ByRequest (q : Request).

(** The world a mutation leaves. *)
Definition mutate (mu : Mutation) (w : World) : World :=
  match mu with
  | ByMethod _ p => (on_state p w).2
  | ByRequest q => serve q w
  end.

(** A state copied twice, into a memento and out of it. *)
Definition round_trip (s : State) : State :=
  mkState (arr_copy <$> (arr_copy <$> board s)) (selectedPeg s).

(** The state after [selectCell(3, 1)] on the initial state: the peg at
    [(3, 1)] is selected. *)
Definition selected_state : State :=
  (run (selectCell 3 1) (fresh_state initialBoardLayout)).2.

(** The action leaves the history as it is. *)
Definition history_kept {A} (m : W A) : Prop :=
  ∀ w, mementos (m w).2 = mementos w.

(** The part of [handleCellClick] that follows the backup. *)
Definition click_selectCell (r c : Z) : W unit :=
  (let* result := on_state (selectCell r c) in
   if bool_decide (result ≠ NO_ACTION) then
     if bool_decide (result = MOVE_SUCCESS) then checkGameStatus
     else wret ()
   else wret ())%W.

(** A click on an empty cell while a peg is selected and the game is on:
    the condition under which [handleCellClick] takes a backup. *)
Definition move_attempt (w : World) (s : State) (r c : Z) : bool :=
  gameStarted w && is_empty (cell_at (board s) r c)
  && bool_decide (is_Some (selectedPeg s)).

(** A state object as the script keeps it, in full: besides being good,
    its board is a grid of cells with the shape of the layout and holds at
    least one peg and no more pegs than the layout. *)
Record sound_state (layout : list JsArray) (s : State) : Prop := mkSound {
  sound_good : good_state layout s;
  sound_grid : is_grid (board s);
  sound_shape : arr_length <$> board s = arr_length <$> layout;
  sound_pegs : (1 ≤ countPegs (board s) ≤ countPegs layout)%nat
}.

(** The memento refers to a state object of the heap that is not the
    originator's. *)
Definition memento_ok (w : World) (m : ConcreteMemento) : Prop :=
  (m_state m < length (heap w))%nat ∧ m_state m ≠ o_state (originator w).

(** A world as the script keeps it: every state object is sound and every
    memento of the history is in order. *)
Record sound_world (layout : list JsArray) (w : World) : Prop := mkSoundWorld {
  sw_layout : initialLayout (originator w) = layout;
  sw_state : (o_state (originator w) < length (heap w))%nat;
  sw_heap : Forall (sound_state layout) (heap w);
  sw_mementos : Forall (memento_ok w) (mementos w)
}.

(** The action keeps a sound world sound. *)
Definition upholds (layout : list JsArray) {A} (m : W A) : Prop :=
  ∀ w res w', sound_world layout w → m w = (res, w') → sound_world layout w'.

(** What [checkGameState] reports as [isGameOver] for a board. *)
Definition game_over (b : list JsArray) : bool :=
  (countPegs b =? 1)%nat || (availableMoves b =? 0)%nat.

(** A click on a row of the initial board, or any other gesture. *)
Definition on_rows (g : Gesture) : Prop :=
  match g with
  | CellClick _ r _ => 0 ≤ r < 7
  | _ => True
  end.

(** Gestures that do nothing while no game is on: clicks and the tutorial
    button. *)
Definition idle_gesture (g : Gesture) : Prop :=
  match g with
  | CellClick _ _ _ | Tutorial => True
  | _ => False
  end.

(** A move from a peg onto an empty cell that [tryMove] accepts. *)
Definition move_exists (s : State) : Prop :=
  ∃ fr fc tr tc s',
    in_bounds (board s) fr fc ∧
    cell_at (board s) fr fc = Some PEG ∧
    cell_at (board s) tr tc = Some EMPTY ∧
    run (tryMove fr fc tr tc) s = (Normal true, s').

(** The world after [backup] when the live state is [s]: a copy of [s] is
    the newest object of the heap, and a memento that refers to it ends the
    history. *)
Definition after_backup (date : string) (s : State) (w : World) : World :=
  set_mementos (mementos w ++ [mkMemento (length (heap w)) date])
               (set_heap (heap w ++ [json_clone s]) w).

(** A number as the timer shows it: in decimal, with a zero before a
    single digit. *)
Definition two_digits (n : Z) : string :=
  if decide (n < 10) then "0" +:+ pretty n else pretty n.

(** * Properties *)

(** ** Arrays and boards *)

Lemma board_row_Some b r row :
  board_row b r = Some row ↔ 0 ≤ r ∧ b !! Z.to_nat r = Some row.
Proof.
  unfold board_row. destruct (Z.ltb_spec r 0); split; try lia; naive_solver.
Qed.

Lemma board_row_lt b r :
  0 ≤ r < Z.of_nat (length b) → is_Some (board_row b r).
Proof.
  intros Hr. unfold board_row. destruct (Z.ltb_spec r 0); [lia|].
  apply lookup_lt_is_Some. lia.
Qed.

Lemma board_row_None b r :
  ¬ 0 ≤ r < Z.of_nat (length b) → board_row b r = None.
Proof.
  intros Hr. unfold board_row. destruct (Z.ltb_spec r 0); [done|].
  apply lookup_ge_None. lia.
Qed.

Lemma in_bounds_spec b r c :
  in_bounds b r c ↔
  ∃ row, board_row b r = Some row ∧ 0 ≤ c < Z.of_nat (arr_length row).
Proof.
  unfold in_bounds. destruct (board_row b r) as [row|].
  - rewrite bool_decide_spec. naive_solver.
  - split; [done|]. by intros (? & ? & _).
Qed.

Lemma in_bounds_col b r c row :
  in_bounds b r c → board_row b r = Some row →
  0 ≤ c < Z.of_nat (arr_length row).
Proof. rewrite in_bounds_spec. intros (? & ? & ?) ?. by simplify_eq. Qed.

Lemma in_bounds_row b r c : in_bounds b r c → 0 ≤ r < Z.of_nat (length b).
Proof.
  rewrite in_bounds_spec. intros (row & Hrow & _).
  apply board_row_Some in Hrow as [? Hl]. apply lookup_lt_Some in Hl. lia.
Qed.

Lemma arr_get_set a i v j :
  arr_get (arr_set a i v) j = if decide (i = j) then Some v else arr_get a j.
Proof.
  unfold arr_get, arr_set.
  destruct (Z.ltb_spec i 0) as [Hi|Hi]; simpl.
  - destruct (Z.ltb_spec j 0) as [Hj|Hj].
    + rewrite lookup_insert. by repeat case_decide.
    + case_decide; [lia|done].
  - destruct (Z.ltb_spec j 0) as [Hj|Hj].
    + case_decide; [lia|]. by destruct (_ <? _)%nat.
    + destruct (Nat.ltb_spec (Z.to_nat i) (length (elems a))) as [Hl|Hl]; simpl.
      * case_decide as Hij.
        -- subst j. by rewrite list_lookup_insert_eq.
        -- rewrite list_lookup_insert_ne; [done|lia].
      * case_decide as Hij.
        -- subst j. rewrite lookup_app_r by lia.
           rewrite lookup_app_r by (rewrite length_replicate; lia).
           rewrite length_replicate.
           by replace (_ - _ - _)%nat with 0%nat by lia.
        -- destruct (decide (Z.to_nat j < length (elems a))%nat) as [Hjl|Hjl].
           { by rewrite lookup_app_l. }
           rewrite lookup_app_r by lia.
           rewrite (lookup_ge_None_2 (elems a)) by lia. simpl.
           destruct (decide (Z.to_nat j < Z.to_nat i)%nat).
           { rewrite lookup_app_l by (rewrite length_replicate; lia).
             rewrite lookup_replicate_2; [done|lia]. }
           rewrite lookup_app_r by (rewrite length_replicate; lia).
           rewrite length_replicate.
           rewrite lookup_ge_None_2; [done|]. simpl. lia.
Qed.

Lemma arr_set_in a i v :
  0 ≤ i < Z.of_nat (arr_length a) →
  arr_set a i v = mkArr (<[Z.to_nat i := Some v]> (elems a)) (props a).
Proof.
  intros Hi. unfold arr_set, arr_length in *.
  destruct (Z.ltb_spec i 0); [lia|].
  destruct (Nat.ltb_spec (Z.to_nat i) (length (elems a))); [done|lia].
Qed.

Lemma arr_length_set_in a i v :
  0 ≤ i < Z.of_nat (arr_length a) → arr_length (arr_set a i v) = arr_length a.
Proof.
  intros Hi. rewrite arr_set_in by done. unfold arr_length. simpl.
  by rewrite length_insert.
Qed.

(** A cell that reads as a value in a row without extra properties is an
    element of the row. *)
Lemma arr_get_Some_in a i x :
  props a = ∅ → arr_get a i = Some x → 0 ≤ i < Z.of_nat (arr_length a).
Proof.
  unfold arr_get, arr_length. intros Hp.
  destruct (Z.ltb_spec i 0); [by rewrite Hp|].
  destruct (elems a !! Z.to_nat i) eqn:Hl; [|done].
  apply lookup_lt_Some in Hl. lia.
Qed.

(** ** Running programs *)

Lemma run_bind {A B} (p : Prog A) (f : A → Prog B) s :
  run (bind p f) s =
  match run p s with
  | (Normal a, s') => run (f a) s'
  | (TypeError, s') => (TypeError, s')
  end.
Proof.
  revert s. induction p; intros s; simpl; auto.
  - by destruct (board_row _ _).
  - by destruct (board_row _ _).
Qed.

Lemma accesses_bind {A B} (p : Prog A) (f : A → Prog B) s :
  accesses (bind p f) s =
  accesses p s ++
  match run p s with
  | (Normal a, s') => accesses (f a) s'
  | (TypeError, _) => []
  end.
Proof.
  revert s. induction p; intros s; simpl; auto.
  - destruct (board_row _ _); [|done]. by f_equal.
  - by f_equal.
  - destruct (board_row _ _); [|done]. by f_equal.
Qed.

Lemma run_read_cell s r c :
  run (read_cell r c) s =
  match board_row (board s) r with
  | Some row => (Normal (arr_get row c), s)
  | None => (TypeError, s)
  end.
Proof. done. Qed.

Lemma run_write_cell s r c v :
  run (write_cell r c v) s =
  match board_row (board s) r with
  | Some row => (Normal (), store_cell s r c row v)
  | None => (TypeError, s)
  end.
Proof. done. Qed.

(** The cells of the state after [board[r][c] = v]. *)
Lemma cell_at_store_cell s r c row v r' c' :
  board_row (board s) r = Some row →
  cell_at (board (store_cell s r c row v)) r' c' =
  if decide (r = r' ∧ c = c') then Some v else cell_at (board s) r' c'.
Proof.
  intros Hrow. apply board_row_Some in Hrow as [Hr Hl].
  unfold cell_at, board_row, store_cell. simpl.
  destruct (Z.ltb_spec r' 0) as [Hr'|Hr'].
  { simpl. case_decide; [lia|done]. }
  destruct (decide (r = r')) as [<-|Hne].
  - rewrite list_lookup_insert_eq by (by eapply lookup_lt_Some).
    rewrite Hl. simpl. rewrite arr_get_set.
    repeat case_decide; naive_solver.
  - rewrite list_lookup_insert_ne by lia.
    case_decide; naive_solver.
Qed.

(** ** Moves *)

Lemma isValidDistance_jump fr fc tr tc :
  (Z.abs (tr - fr) =? 2) && (tc - fc =? 0)
  || (Z.abs (tc - fc) =? 2) && (tr - fr =? 0) = true ↔ jump fr fc tr tc.
Proof.
  unfold jump.
  rewrite orb_true_iff, !andb_true_iff, !Z.eqb_eq. done.
Qed.

Lemma half_of_two d :
  Z.abs d = 2 → (d = 2 ∧ d / 2 = 1) ∨ (d = -2 ∧ d / 2 = -1).
Proof.
  intros Hd. assert (d = 2 ∨ d = -2) as [-> | ->] by lia; [left|right]; done.
Qed.

(** The quotients of an accepted displacement. *)
Lemma jump_halves fr fc tr tc :
  jump fr fc tr tc →
  let dr := tr - fr in
  let dc := tc - fc in
  2 * (dr / 2) = dr ∧ 2 * (dc / 2) = dc ∧
  ((Z.abs (dr / 2) = 1 ∧ dc / 2 = 0) ∨ (Z.abs (dc / 2) = 1 ∧ dr / 2 = 0)).
Proof.
  intros [[Hd ->] | [Hd ->]]; simpl;
    destruct (half_of_two _ Hd) as [[-> ->] | [-> ->]];
    change (0 / 2) with 0; lia.
Qed.

(** Boards of the same shape have the same positions. *)
Lemma in_bounds_shape b b' r c :
  arr_length <$> b' = arr_length <$> b → in_bounds b' r c = in_bounds b r c.
Proof.
  intros Hs. unfold in_bounds, board_row.
  destruct (r <? 0); [done|].
  assert ((arr_length <$> b') !! Z.to_nat r = (arr_length <$> b) !! Z.to_nat r)
    as Hl by (by rewrite Hs).
  rewrite !list_lookup_fmap in Hl.
  destruct (b' !! Z.to_nat r), (b !! Z.to_nat r); simplify_eq/=; try done.
  by rewrite Hl.
Qed.

Lemma shape_store_cell s r c row v :
  board_row (board s) r = Some row →
  0 ≤ c < Z.of_nat (arr_length row) →
  arr_length <$> board (store_cell s r c row v) = arr_length <$> board s.
Proof.
  intros Hrow Hc. apply board_row_Some in Hrow as [Hr Hl].
  unfold store_cell. simpl. rewrite list_fmap_insert.
  rewrite arr_length_set_in by done.
  apply list_insert_id. by rewrite list_lookup_fmap, Hl.
Qed.

(** An assignment to a cell inside the board. *)
Lemma run_write_cell_in s r c v :
  in_bounds (board s) r c →
  ∃ row, board_row (board s) r = Some row ∧
         run (write_cell r c v) s = (Normal (), store_cell s r c row v) ∧
         arr_length <$> board (store_cell s r c row v)
         = arr_length <$> board s.
Proof.
  rewrite in_bounds_spec. intros (row & Hrow & Hc). exists row.
  split; [done|]. split; [by rewrite run_write_cell, Hrow|].
  by apply shape_store_cell.
Qed.

(** The midpoint of a jump between two positions of the board lies on a row
    of the board. *)
Lemma jump_mid_row b fr fc tr tc :
  jump fr fc tr tc → in_bounds b fr fc → in_bounds b tr tc →
  is_Some (board_row b (fr + (tr - fr) / 2)).
Proof.
  intros Hj Hf Ht. apply in_bounds_row in Hf, Ht.
  apply board_row_lt.
  destruct Hj as [[Hd _] | [_ ->]].
  - destruct (half_of_two _ Hd) as [[? ->] | [? ->]]; lia.
  - change (0 / 2) with 0. lia.
Qed.

(** The midpoint of a jump is a column of the origin or of the destination
    moved by one, and not negative. *)
Lemma jump_mid_col b fr fc tr tc :
  jump fr fc tr tc → in_bounds b fr fc → in_bounds b tr tc →
  0 ≤ fc + (tc - fc) / 2.
Proof.
  intros Hj Hf Ht.
  apply in_bounds_spec in Hf as (? & _ & ?), Ht as (? & _ & ?).
  destruct Hj as [[_ ->] | [Hd _]].
  - change (0 / 2) with 0. lia.
  - destruct (half_of_two _ Hd) as [[? ->] | [? ->]]; lia.
Qed.

Lemma arr_get_in_bounds a i x :
  0 ≤ i → arr_get a i = Some x → 0 ≤ i < Z.of_nat (arr_length a).
Proof.
  unfold arr_get, arr_length. intros Hi.
  destruct (Z.ltb_spec i 0); [lia|].
  destruct (elems a !! Z.to_nat i) eqn:Hl; [|done].
  apply lookup_lt_Some in Hl. lia.
Qed.

Lemma cell_at_in_bounds b r c x :
  0 ≤ c → cell_at b r c = Some x → in_bounds b r c.
Proof.
  unfold cell_at. intros Hc Hx. apply in_bounds_spec.
  destruct (board_row b r) as [row|]; [|done]. simpl in Hx.
  exists row. split; [done|]. by eapply arr_get_in_bounds.
Qed.

Lemma accesses_read_cell s r c : accesses (read_cell r c) s = [Read r c].
Proof. simpl. by destruct (board_row _ _). Qed.

Lemma accesses_write_cell s r c v :
  accesses (write_cell r c v) s = [Write r c].
Proof. simpl. by destruct (board_row _ _). Qed.

(** What an accepted move does: the read of the midpoint and the three
    assignments, each to a cell of a board that keeps its shape. *)
Lemma run_tryMove_legal s fr fc tr tc :
  in_bounds (board s) fr fc → in_bounds (board s) tr tc →
  jump fr fc tr tc →
  let mr := fr + (tr - fr) / 2 in
  let mc := fc + (tc - fc) / 2 in
  cell_at (board s) mr mc = Some PEG →
  ∃ rowf rowm rowt,
    let s1 := store_cell s fr fc rowf EMPTY in
    let s2 := store_cell s1 mr mc rowm EMPTY in
    let s3 := store_cell s2 tr tc rowt PEG in
    board_row (board s) fr = Some rowf ∧
    board_row (board s1) mr = Some rowm ∧
    board_row (board s2) tr = Some rowt ∧
    in_bounds (board s) mr mc ∧
    in_bounds (board s1) mr mc ∧
    in_bounds (board s2) tr tc ∧
    run (tryMove fr fc tr tc) s = (Normal true, s3) ∧
    accesses (tryMove fr fc tr tc) s
    = [Read mr mc; Write fr fc; Write mr mc; Write tr tc].
Proof.
  intros Hf Ht Hj mr mc Hmid.
  assert (in_bounds (board s) mr mc) as Hm.
  { eapply cell_at_in_bounds; [|done]. by eapply jump_mid_col. }
  pose proof Hm as Hm0.
  unfold tryMove.
  apply isValidDistance_jump in Hj as ->.
  cbv zeta. fold mr mc. unfold negb at 1 3.
  rewrite accesses_bind, accesses_read_cell, run_bind, run_read_cell.
  destruct (board_row (board s) mr) as [rowm|] eqn:Hrowm;
    [|by unfold cell_at in Hmid; rewrite Hrowm in Hmid].
  assert (arr_get rowm mc = Some PEG) as ->
    by (by unfold cell_at in Hmid; rewrite Hrowm in Hmid).
  change (negb (is_peg (Some PEG))) with false. cbv iota.
  destruct (run_write_cell_in s fr fc EMPTY Hf) as (rowf & Hrowf & Hw1 & Hs1).
  rewrite accesses_bind, accesses_write_cell, run_bind, Hw1.
  set (s1 := store_cell s fr fc rowf EMPTY) in *.
  rewrite <- (in_bounds_shape _ _ mr mc Hs1) in Hm.
  rewrite <- (in_bounds_shape _ _ tr tc Hs1) in Ht.
  destruct (run_write_cell_in s1 mr mc EMPTY Hm)
    as (rowm1 & Hrowm1 & Hw2 & Hs2).
  rewrite accesses_bind, accesses_write_cell, run_bind, Hw2.
  set (s2 := store_cell s1 mr mc rowm1 EMPTY) in *.
  rewrite <- (in_bounds_shape _ _ tr tc Hs2) in Ht.
  destruct (run_write_cell_in s2 tr tc PEG Ht) as (rowt & Hrowt & Hw3 & Hs3).
  rewrite accesses_bind, accesses_write_cell, run_bind, Hw3.
  exists rowf, rowm1, rowt. by split_and!.
Qed.

(** The state an accepted move leaves, cell by cell. *)
Lemma tryMove_legal_cells s fr fc tr tc :
  in_bounds (board s) fr fc → in_bounds (board s) tr tc →
  jump fr fc tr tc →
  let mr := fr + (tr - fr) / 2 in
  let mc := fc + (tc - fc) / 2 in
  cell_at (board s) mr mc = Some PEG →
  ∃ s', run (tryMove fr fc tr tc) s = (Normal true, s') ∧
        selectedPeg s' = selectedPeg s ∧
        arr_length <$> board s' = arr_length <$> board s ∧
        ∀ r c, cell_at (board s') r c =
               if decide (r = tr ∧ c = tc) then Some PEG
               else if decide (r = mr ∧ c = mc) then Some EMPTY
               else if decide (r = fr ∧ c = fc) then Some EMPTY
               else cell_at (board s) r c.
Proof.
  intros Hf Ht Hj mr mc Hmid.
  destruct (run_tryMove_legal s fr fc tr tc Hf Ht Hj Hmid)
    as (rowf & rowm & rowt & Hrf & Hrm & Hrt & _ & Hm1 & Ht2 & Hrun & _).
  fold mr mc in Hrm, Hm1, Hrun.
  eexists. split; [done|]. split; [done|].
  apply in_bounds_spec in Hf as (? & ? & ?), Hm1 as (? & ? & ?),
    Ht2 as (? & ? & ?). simplify_eq.
  split.
  - rewrite !shape_store_cell; done.
  - intros r c. rewrite !cell_at_store_cell by done.
    repeat case_decide; naive_solver.
Qed.

(** What a refused move does: nothing. *)
Lemma run_tryMove_illegal s fr fc tr tc :
  in_bounds (board s) fr fc → in_bounds (board s) tr tc →
  let mr := fr + (tr - fr) / 2 in
  let mc := fc + (tc - fc) / 2 in
  ¬ (jump fr fc tr tc ∧ cell_at (board s) mr mc = Some PEG) →
  run (tryMove fr fc tr tc) s = (Normal false, s).
Proof.
  intros Hf Ht mr mc Hno. unfold tryMove.
  destruct (_ || _) eqn:Hd; simpl; [|done].
  apply isValidDistance_jump in Hd.
  destruct (jump_mid_row _ _ _ _ _ Hd Hf Ht) as [rowm Hrowm].
  fold mr in Hrowm |- *. fold mc. rewrite Hrowm.
  unfold is_peg. case_bool_decide as Hpeg; simpl; [|done].
  destruct Hno. split; [done|]. unfold cell_at. by rewrite Hrowm.
Qed.

(** [tryMove] between two positions of the board, in full: when it accepts,
    what it leaves, and that it never throws. *)
Lemma tryMove_cases s fr fc tr tc :
  in_bounds (board s) fr fc → in_bounds (board s) tr tc →
  let mr := fr + (tr - fr) / 2 in
  let mc := fc + (tc - fc) / 2 in
  ∃ ok s',
    run (tryMove fr fc tr tc) s = (Normal ok, s') ∧
    (ok = true ↔ jump fr fc tr tc ∧ cell_at (board s) mr mc = Some PEG) ∧
    (ok = true →
       cell_at (board s') fr fc = Some EMPTY ∧
       cell_at (board s') mr mc = Some EMPTY ∧
       cell_at (board s') tr tc = Some PEG ∧
       (∀ r c, (r, c) ≠ (fr, fc) → (r, c) ≠ (mr, mc) → (r, c) ≠ (tr, tc) →
               cell_at (board s') r c = cell_at (board s) r c) ∧
       arr_length <$> board s' = arr_length <$> board s ∧
       selectedPeg s' = selectedPeg s) ∧
    (ok = false → s' = s).
Proof.
  intros Hf Ht mr mc.
  destruct (decide (jump fr fc tr tc ∧ cell_at (board s) mr mc = Some PEG))
    as [[Hj Hmid] | Hno].
  - destruct (tryMove_legal_cells s fr fc tr tc Hf Ht Hj Hmid)
      as (s' & Hrun & Hsel & Hshape & Hcells).
    exists true, s'. split; [done|]. split; [done|]. split; [|done].
    intros _.
    pose proof (jump_halves _ _ _ _ Hj) as (Hr & Hc & Hh). simpl in Hr, Hc, Hh.
    fold mr mc in Hcells.
    split_and!; try done.
    + rewrite Hcells. repeat case_decide; try done; lia.
    + rewrite Hcells. repeat case_decide; try done; lia.
    + rewrite Hcells. by rewrite decide_True.
    + intros r c ???. rewrite Hcells. repeat case_decide; naive_solver.
  - exists false, s. split; [by apply run_tryMove_illegal|].
    split; [split; [done | by intros ?]|]. done.
Qed.

(** C1.  For a move between two positions of the board, [tryMove] returns
    [true] exactly when the displacement is two cells along one axis and none
    along the other and the midpoint cell holds a peg.  It then has set the
    origin and the midpoint to [EMPTY] and the destination to [PEG], all
    other cells, the shape of the board and the selection being as before.
    Otherwise it returns [false] and the state is the one it started from. *)
Theorem tryMove_accepts_iff s fr fc tr tc :
  in_bounds (board s) fr fc → in_bounds (board s) tr tc →
  let mr := fr + (tr - fr) / 2 in
  let mc := fc + (tc - fc) / 2 in
  ∃ ok s',
    run (tryMove fr fc tr tc) s = (Normal ok, s') ∧
    (ok = true ↔ jump fr fc tr tc ∧ cell_at (board s) mr mc = Some PEG) ∧
    (ok = true →
       cell_at (board s') fr fc = Some EMPTY ∧
       cell_at (board s') mr mc = Some EMPTY ∧
       cell_at (board s') tr tc = Some PEG ∧
       (∀ r c, (r, c) ≠ (fr, fc) → (r, c) ≠ (mr, mc) → (r, c) ≠ (tr, tc) →
               cell_at (board s') r c = cell_at (board s) r c) ∧
       arr_length <$> board s' = arr_length <$> board s ∧
       selectedPeg s' = selectedPeg s) ∧
    (ok = false → s' = s).
Proof. apply tryMove_cases. Qed.

Lemma tryMove_accepts_iff_witness :
  let s := fresh_state initialBoardLayout in
  ∃ ok s',
    run (tryMove 3 1 3 3) s = (Normal ok, s') ∧
    (ok = true ↔ jump 3 1 3 3 ∧ cell_at (board s) 3 2 = Some PEG) ∧
    (ok = true →
       cell_at (board s') 3 1 = Some EMPTY ∧
       cell_at (board s') 3 2 = Some EMPTY ∧
       cell_at (board s') 3 3 = Some PEG ∧
       (∀ r c, (r, c) ≠ (3, 1) → (r, c) ≠ (3, 2) → (r, c) ≠ (3, 3) →
               cell_at (board s') r c = cell_at (board s) r c) ∧
       arr_length <$> board s' = arr_length <$> board s ∧
       selectedPeg s' = selectedPeg s) ∧
    (ok = false → s' = s).
Proof.
  exact (tryMove_accepts_iff (fresh_state initialBoardLayout) 3 1 3 3 I I).
Defined.

(** ** Midpoint safety *)

Lemma in_bounds_rectangular b w r c :
  rectangular b w →
  in_bounds b r c ↔ 0 ≤ r < Z.of_nat (length b) ∧ 0 ≤ c < Z.of_nat w.
Proof.
  intros Hrect. rewrite in_bounds_spec. split.
  - intros (row & Hrow & Hc). split.
    + apply in_bounds_row with c. apply in_bounds_spec. eauto.
    + apply board_row_Some in Hrow as [_ Hl].
      eapply Forall_lookup_1 in Hrect; [|done]. simpl in Hrect. lia.
  - intros [Hr Hc]. destruct (board_row_lt b r Hr) as [row Hrow].
    exists row. split; [done|].
    apply board_row_Some in Hrow as [_ Hl].
    eapply Forall_lookup_1 in Hrect; [|done]. simpl in Hrect. lia.
Qed.

(** On a rectangular board the midpoint of a jump between two positions is
    a position of the board. *)
Lemma jump_mid_in_bounds b w fr fc tr tc :
  rectangular b w → jump fr fc tr tc →
  in_bounds b fr fc → in_bounds b tr tc →
  in_bounds b (fr + (tr - fr) / 2) (fc + (tc - fc) / 2).
Proof.
  intros Hrect Hj. rewrite !(in_bounds_rectangular _ _ _ _ Hrect).
  intros [??] [??].
  destruct Hj as [[Hd ->] | [Hd ->]];
    destruct (half_of_two _ Hd) as [[? ->] | [? ->]];
    change (0 / 2) with 0; lia.
Qed.

(** The accesses of [tryMove] between two positions of the board. *)
Lemma accesses_tryMove s fr fc tr tc :
  in_bounds (board s) fr fc → in_bounds (board s) tr tc →
  let mr := fr + (tr - fr) / 2 in
  let mc := fc + (tc - fc) / 2 in
  accesses (tryMove fr fc tr tc) s =
  if decide (jump fr fc tr tc) then
    Read mr mc ::
    (if decide (cell_at (board s) mr mc = Some PEG)
     then [Write fr fc; Write mr mc; Write tr tc] else [])
  else [].
Proof.
  intros Hf Ht mr mc. case_decide as Hj.
  - case_decide as Hmid.
    + by destruct (run_tryMove_legal s fr fc tr tc Hf Ht Hj Hmid)
        as (? & ? & ? & _ & _ & _ & _ & _ & _ & _ & ->).
    + unfold tryMove. pose proof Hj as Hj'.
      apply isValidDistance_jump in Hj' as ->. cbv zeta. fold mr mc.
      unfold negb at 1.
      rewrite accesses_bind, accesses_read_cell, run_read_cell.
      destruct (jump_mid_row _ _ _ _ _ Hj Hf Ht) as [rowm Hrowm].
      fold mr in Hrowm. rewrite Hrowm.
      unfold cell_at in Hmid. rewrite Hrowm in Hmid. simpl in Hmid.
      unfold is_peg. by rewrite bool_decide_eq_false_2.
  - unfold tryMove. destruct (_ || _) eqn:Hd; [|done].
    by apply isValidDistance_jump in Hd.
Qed.

(** C10.  For a move between two positions of a rectangular board: when the
    distance test passes, [dr / 2] and [dc / 2] are exact and lie in
    [-1 .. 1], and the midpoint is the position half-way between the origin
    and the destination, different from both, and on the board; every cell
    [tryMove] reads or writes is a position of the board; and [tryMove]
    returns a boolean, it does not throw. *)
Theorem tryMove_midpoint_safe s w fr fc tr tc :
  rectangular (board s) w →
  in_bounds (board s) fr fc → in_bounds (board s) tr tc →
  let dr := tr - fr in
  let dc := tc - fc in
  let mr := fr + dr / 2 in
  let mc := fc + dc / 2 in
  (jump fr fc tr tc →
     2 * (dr / 2) = dr ∧ 2 * (dc / 2) = dc ∧
     -1 ≤ dr / 2 ≤ 1 ∧ -1 ≤ dc / 2 ≤ 1 ∧
     mr - fr = tr - mr ∧ mc - fc = tc - mc ∧
     (mr, mc) ≠ (fr, fc) ∧ (mr, mc) ≠ (tr, tc) ∧
     in_bounds (board s) mr mc) ∧
  Forall (λ a, access_in_bounds (board s) a)
         (accesses (tryMove fr fc tr tc) s) ∧
  ∃ ok s', run (tryMove fr fc tr tc) s = (Normal ok, s').
Proof.
  intros Hrect Hf Ht dr dc mr mc. split_and!.
  - intros Hj.
    pose proof (jump_halves _ _ _ _ Hj) as (Hr & Hc & Hh).
    pose proof (jump_mid_in_bounds _ _ _ _ _ _ Hrect Hj Hf Ht) as Hm.
    fold dr dc in Hr, Hc, Hh.
    split_and!; try done; try lia.
    + intros [=]. lia.
    + intros [=]. lia.
  - rewrite accesses_tryMove by done. case_decide as Hj; [|done].
    pose proof (jump_mid_in_bounds _ _ _ _ _ _ Hrect Hj Hf Ht) as Hm.
    case_decide; repeat constructor; done.
  - destruct (tryMove_cases s fr fc tr tc Hf Ht) as (ok & s' & ? & _).
    eauto.
Qed.

Lemma initial_rectangular : rectangular (board (fresh_state initialBoardLayout)) 7.
Proof. unfold rectangular. by repeat constructor. Qed.

Lemma tryMove_midpoint_safe_witness :
  let s := fresh_state initialBoardLayout in
  (jump 3 5 3 3 →
     2 * ((3 - 3) / 2) = 3 - 3 ∧ 2 * ((3 - 5) / 2) = 3 - 5 ∧
     -1 ≤ (3 - 3) / 2 ≤ 1 ∧ -1 ≤ (3 - 5) / 2 ≤ 1 ∧
     (3 + (3 - 3) / 2) - 3 = 3 - (3 + (3 - 3) / 2) ∧
     (5 + (3 - 5) / 2) - 5 = 3 - (5 + (3 - 5) / 2) ∧
     (3 + (3 - 3) / 2, 5 + (3 - 5) / 2) ≠ (3, 5) ∧
     (3 + (3 - 3) / 2, 5 + (3 - 5) / 2) ≠ (3, 3) ∧
     in_bounds (board s) (3 + (3 - 3) / 2) (5 + (3 - 5) / 2)) ∧
  Forall (λ a, access_in_bounds (board s) a)
         (accesses (tryMove 3 5 3 3) s) ∧
  ∃ ok s', run (tryMove 3 5 3 3) s = (Normal ok, s').
Proof.
  exact (tryMove_midpoint_safe (fresh_state initialBoardLayout) 7 3 5 3 3
           initial_rectangular I I).
Defined.

(** ** Counting pegs *)

Lemma count_insert (l : list (option Cell)) i y :
  (i < length l)%nat →
  (length (filter (λ v, v = Some PEG) (<[i := y]> l))
   + peg_weight (mjoin (l !! i))
   = length (filter (λ v, v = Some PEG) l) + peg_weight y)%nat.
Proof.
  revert i. induction l as [|x l IH]; intros i Hi; simpl in *; [lia|].
  destruct i as [|i]; simpl.
  - rewrite !filter_cons. unfold peg_weight.
    repeat case_decide; simpl; try lia; naive_solver.
  - specialize (IH i ltac:(lia)). rewrite !filter_cons.
    case_decide; simpl; lia.
Qed.

Lemma countPegs_cons row b :
  countPegs (row :: b)
  = (length (filter (λ v, v = Some PEG) (elems row)) + countPegs b)%nat.
Proof. unfold countPegs. simpl. by rewrite filter_app, length_app. Qed.

Lemma countPegs_insert b i row row' :
  b !! i = Some row →
  (countPegs (<[i := row']> b)
   + length (filter (λ v, v = Some PEG) (elems row))
   = countPegs b + length (filter (λ v, v = Some PEG) (elems row')))%nat.
Proof.
  revert i. induction b as [|x b IH]; intros i Hi; [done|].
  destruct i as [|i]; simpl in *.
  - simplify_eq. rewrite !countPegs_cons. lia.
  - rewrite !countPegs_cons. specialize (IH i Hi). lia.
Qed.

(** An assignment to a cell of the board changes the peg count by what the
    cell held and what it holds now. *)
Lemma countPegs_store_cell s r c row v :
  board_row (board s) r = Some row →
  0 ≤ c < Z.of_nat (arr_length row) →
  (countPegs (board (store_cell s r c row v)) + peg_weight (arr_get row c)
   = countPegs (board s) + peg_weight (Some v))%nat.
Proof.
  intros Hrow Hc. apply board_row_Some in Hrow as [Hr Hl].
  unfold store_cell. simpl.
  pose proof (countPegs_insert _ _ _ (arr_set row c v) Hl) as Hins.
  rewrite arr_set_in in Hins |- * by done. simpl in Hins.
  pose proof (count_insert (elems row) (Z.to_nat c) (Some v)) as Hcnt.
  unfold arr_length in Hc. specialize (Hcnt ltac:(lia)).
  unfold arr_get. destruct (Z.ltb_spec c 0); [lia|]. lia.
Qed.

Lemma cell_at_weight b r c x :
  cell_at b r c = Some x → ∀ row, board_row b r = Some row →
  peg_weight (arr_get row c) = peg_weight (Some x).
Proof.
  unfold cell_at. intros Hx row Hrow. rewrite Hrow in Hx. simpl in Hx.
  by rewrite Hx.
Qed.

(** C4, as stated, fails: [tryMove] checks neither that the origin holds a
    peg nor that the destination is empty.  On the initial board the direct
    call [tryMove(3, 0, 3, 2)] jumps onto the peg at [(3, 2)]: it is
    accepted and leaves 30 of the 32 pegs. *)
Lemma tryMove_count_counterexample :
  let s := fresh_state initialBoardLayout in
  ∃ s', run (tryMove 3 0 3 2) s = (Normal true, s') ∧
        countPegs (board s) = 32%nat ∧
        countPegs (board s') = 30%nat.
Proof. eexists. split; [reflexivity|]. split; reflexivity. Qed.

(** C4, amended.  Whenever [tryMove] returns [true] for an origin on the
    board that holds a peg and a destination on the board that is empty,
    which is how [selectCell] calls it, the peg count after the move is the
    count before it minus one. *)
Theorem tryMove_removes_one_peg s fr fc tr tc s' :
  in_bounds (board s) fr fc → in_bounds (board s) tr tc →
  cell_at (board s) fr fc = Some PEG →
  cell_at (board s) tr tc = Some EMPTY →
  run (tryMove fr fc tr tc) s = (Normal true, s') →
  countPegs (board s) = S (countPegs (board s')).
Proof.
  intros Hf Ht Hfrom Hto Hrun.
  destruct (tryMove_cases s fr fc tr tc Hf Ht)
    as (ok & s'' & Hrun' & Hok & _).
  rewrite Hrun in Hrun'. simplify_eq.
  destruct Hok as [Hok _]. destruct (Hok eq_refl) as [Hj Hmid].
  destruct (run_tryMove_legal s fr fc tr tc Hf Ht Hj Hmid)
    as (rowf & rowm & rowt & Hrf & Hrm & Hrt & _ & Hm1 & Ht2 & Hrun' & _).
  rewrite Hrun in Hrun'. simplify_eq.
  pose proof (jump_halves _ _ _ _ Hj) as (Hr & Hc & Hh). simpl in Hr, Hc, Hh.
  set (mr := fr + (tr - fr) / 2) in *. set (mc := fc + (tc - fc) / 2) in *.
  set (s1 := store_cell s fr fc rowf EMPTY) in *.
  set (s2 := store_cell s1 mr mc rowm EMPTY) in *.
  assert (cell_at (board s1) mr mc = Some PEG) as Hmid1.
  { unfold s1. rewrite cell_at_store_cell by done.
    rewrite decide_False by lia. done. }
  assert (cell_at (board s2) tr tc = Some EMPTY) as Hto2.
  { unfold s2. rewrite cell_at_store_cell by done.
    rewrite decide_False by lia.
    unfold s1. rewrite cell_at_store_cell by done.
    rewrite decide_False by lia. done. }
  pose proof (in_bounds_col _ _ _ _ Hf Hrf) as Hfc.
  pose proof (in_bounds_col _ _ _ _ Hm1 Hrm) as Hmc.
  pose proof (in_bounds_col _ _ _ _ Ht2 Hrt) as Htc.
  pose proof (countPegs_store_cell s fr fc rowf EMPTY Hrf Hfc) as H1.
  pose proof (countPegs_store_cell s1 mr mc rowm EMPTY Hrm Hmc) as H2.
  pose proof (countPegs_store_cell s2 tr tc rowt PEG Hrt Htc) as H3.
  rewrite (cell_at_weight _ _ _ _ Hfrom _ Hrf) in H1.
  rewrite (cell_at_weight _ _ _ _ Hmid1 _ Hrm) in H2.
  rewrite (cell_at_weight _ _ _ _ Hto2 _ Hrt) in H3.
  change (peg_weight (Some PEG)) with 1%nat in *.
  change (peg_weight (Some EMPTY)) with 0%nat in *.
  subst s2 s1. lia.
Qed.

Lemma tryMove_removes_one_peg_witness :
  let s := fresh_state initialBoardLayout in
  countPegs (board s)
  = S (countPegs (board (snd (run (tryMove 3 1 3 3) s)))).
Proof.
  exact (tryMove_removes_one_peg (fresh_state initialBoardLayout) 3 1 3 3
           _ I I eq_refl eq_refl eq_refl).
Defined.

(** ** The terminal-state check *)

Lemma run_for_each {A B} (l : list A) (acc : B) (body : B → A → Prog B)
    (f : B → A → B) s :
  (∀ acc x, x ∈ l → run (body acc x) s = (Normal (f acc x), s)) →
  run (for_each l acc body) s = (Normal (foldl f acc l), s).
Proof.
  revert acc. induction l as [|x l IH]; intros acc Hbody; simpl; [done|].
  rewrite run_bind, Hbody by left.
  apply IH. intros ???. apply Hbody. by right.
Qed.

(** The loops of [checkGameState] as folds: they only read. *)
Lemma run_checkGameState_fold s :
  run checkGameState s =
  let counters := foldl (row_step (board s)) (0, 0)%nat
                        (seq 0 (length (board s))) in
  (Normal (mkStatus ((counters.1 =? 1)%nat || (counters.2 =? 0)%nat)
                    (counters.1 =? 1)%nat counters.1), s).
Proof.
  unfold checkGameState. rewrite run_bind. simpl run at 1. cbv beta iota.
  rewrite run_bind.
  rewrite (run_for_each _ _ _ (row_step (board s))); [done|].
  intros acc r Hr. apply elem_of_seq in Hr as [_ Hr]. simpl in Hr.
  destruct (lookup_lt_is_Some_2 (board s) r Hr) as [row Hrow].
  rewrite run_bind. simpl run at 1. rewrite Hrow. simpl run at 1.
  cbv beta iota.
  unfold row_step. rewrite Hrow. simpl from_option.
  apply run_for_each. intros acc' c Hc.
  rewrite run_bind, run_read_cell.
  assert (board_row (board s) (Z.of_nat r) = Some row) as Hbr.
  { apply board_row_Some. split; [lia|]. by rewrite Nat2Z.id. }
  rewrite Hbr. unfold cell_step, cell_at. rewrite Hbr. simpl mbind.
  cbv beta iota.
  destruct (is_peg (arr_get row (Z.of_nat c))); [|done].
  rewrite run_bind.
  rewrite (run_for_each _ _ _ (dir_step (board s) (Z.of_nat r) (Z.of_nat c)));
    [done|].
  intros n [dx dy] _. unfold dir_step, can_jump. simpl.
  by destruct (is_empty _).
Qed.

Lemma foldl_dir_step b r c n ds :
  foldl (dir_step b r c) n ds
  = (n + length (filter (λ d, can_jump b r c d) ds))%nat.
Proof.
  revert n. induction ds as [|d ds IH]; intros n; simpl; [lia|].
  rewrite IH, filter_cons. unfold dir_step.
  destruct (can_jump b r c d); simpl; lia.
Qed.

Lemma count_available_dirs b p ds :
  length (filter (λ m, available b m) (ds ≫= λ d, [(p, d)]))
  = if is_peg (cell_at b p.1 p.2)
    then length (filter (λ d, can_jump b p.1 p.2 d) ds) else 0%nat.
Proof.
  induction ds as [|d ds IH]; simpl.
  - by destruct (is_peg _).
  - rewrite !filter_cons.
    assert (available b (p, d)
            ↔ is_peg (cell_at b p.1 p.2) ∧ can_jump b p.1 p.2 d) as Hav
      by (unfold available; simpl; apply andb_True).
    destruct (is_peg (cell_at b p.1 p.2));
      repeat case_decide; simpl; rewrite ?IH; naive_solver.
Qed.

Lemma foldl_cell_step b r acc cs :
  let ps := cs ≫= λ c, [(Z.of_nat r, Z.of_nat c)] in
  foldl (cell_step b r) acc cs
  = ((acc.1 + length (filter (λ p, peg_at b p) ps))%nat,
     (acc.2 + length (filter (λ m, available b m)
                             (ps ≫= λ p, DIRECTIONS ≫= λ d, [(p, d)])))%nat).
Proof.
  cbv zeta. revert acc. induction cs as [|c cs IH]; intros [n m].
  { simpl. f_equal; lia. }
  change (foldl (cell_step b r) (n, m) (c :: cs))
    with (foldl (cell_step b r) (cell_step b r (n, m) c) cs).
  rewrite IH. clear IH.
  rewrite bind_cons, bind_app, bind_singleton.
  rewrite !filter_app, !length_app.
  rewrite count_available_dirs. rewrite filter_cons, filter_nil.
  unfold cell_step. cbn [fst snd].
  case_decide as Hp; unfold peg_at in Hp; cbn [fst snd] in Hp;
    destruct (is_peg (cell_at b (Z.of_nat r) (Z.of_nat c))); try done;
    cbn [fst snd length].
  all: rewrite ?foldl_dir_step; f_equal; lia.
Qed.

Lemma foldl_row_step b acc rs :
  let ps := rs ≫= λ r, seq 0 (from_option arr_length 0%nat (b !! r))
                 ≫= λ c, [(Z.of_nat r, Z.of_nat c)] in
  foldl (row_step b) acc rs
  = ((acc.1 + length (filter (λ p, peg_at b p) ps))%nat,
     (acc.2 + length (filter (λ m, available b m)
                             (ps ≫= λ p, DIRECTIONS ≫= λ d, [(p, d)])))%nat).
Proof.
  cbv zeta. revert acc. induction rs as [|r rs IH]; intros [n m].
  { simpl. f_equal; lia. }
  change (foldl (row_step b) (n, m) (r :: rs))
    with (foldl (row_step b) (row_step b (n, m) r) rs).
  rewrite IH. clear IH. unfold row_step. rewrite foldl_cell_step.
  cbn [fst snd].
  rewrite bind_cons, bind_app, !filter_app, !length_app. f_equal; lia.
Qed.

(** Counting the pegs position by position, as the loops do, or on the
    flattened board, as [getName] does, gives the same number. *)
Lemma count_row_by_index (l : list (option Cell)) (f : nat → option Cell) k :
  (∀ i, (i < length l)%nat → f (k + i)%nat = mjoin (l !! i)) →
  length (filter (λ c, is_peg (f c)) (seq k (length l)))
  = length (filter (λ v, v = Some PEG) l).
Proof.
  revert k. induction l as [|x l IH]; intros k Hf; [done|].
  cbn [length seq]. rewrite !filter_cons.
  specialize (IH (S k)).
  assert (f k = x) as Hx.
  { specialize (Hf 0%nat). simpl in Hf. rewrite Nat.add_0_r in Hf.
    apply Hf. lia. }
  assert (is_peg (f k) ↔ x = Some PEG) as Hpeg.
  { rewrite Hx. unfold is_peg. by rewrite bool_decide_spec. }
  repeat case_decide; cbn [length]; rewrite IH; try done; try tauto.
  all: intros i Hi; specialize (Hf (S i)); simpl in Hf;
    rewrite <- Hf by lia; f_equal; lia.
Qed.

Lemma count_positions_by_index (b rows : list JsArray) k :
  (∀ i, (i < length rows)%nat → b !! (k + i)%nat = rows !! i) →
  length (filter (λ p, peg_at b p)
            (seq k (length rows) ≫= λ r,
               seq 0 (from_option arr_length 0%nat (b !! r))
               ≫= λ c, [(Z.of_nat r, Z.of_nat c)]))
  = countPegs rows.
Proof.
  revert k. induction rows as [|row rows IH]; intros k Hb; [done|].
  cbn [length seq]. rewrite bind_cons.
  rewrite filter_app, length_app, countPegs_cons.
  rewrite (IH (S k)).
  2:{ intros i Hi. specialize (Hb (S i)). simpl in Hb.
      rewrite <- Hb by (simpl; lia). f_equal. lia. }
  f_equal.
  specialize (Hb 0%nat). simpl in Hb. rewrite Nat.add_0_r in Hb.
  rewrite Hb by lia. cbn [from_option].
  rewrite <- (count_row_by_index (elems row)
                (λ c, cell_at b (Z.of_nat k) (Z.of_nat c)) 0).
  2:{ intros i _. unfold cell_at, board_row.
      destruct (Z.ltb_spec (Z.of_nat k) 0); [lia|].
      rewrite Nat2Z.id, Hb by lia. simpl. unfold arr_get.
      destruct (Z.ltb_spec (Z.of_nat i) 0); [lia|]. by rewrite Nat2Z.id. }
  unfold arr_length.
  generalize (seq 0 (length (elems row))). intros cs.
  induction cs as [|c cs IHcs]; [done|].
  rewrite bind_cons, filter_app, length_app, IHcs.
  rewrite !filter_cons, filter_nil. unfold peg_at at 1. cbn [fst snd].
  repeat case_decide; done.
Qed.

Lemma count_positions b :
  length (filter (λ p, peg_at b p) (positions b)) = countPegs b.
Proof. apply (count_positions_by_index b b 0). done. Qed.

Lemma elem_of_positions b r c : (r, c) ∈ positions b ↔ in_bounds b r c.
Proof.
  unfold positions. rewrite list_elem_of_bind, in_bounds_spec. split.
  - intros (r0 & Hc & Hr0). apply elem_of_seq in Hr0 as [_ Hr0].
    apply list_elem_of_bind in Hc as (c0 & Hp & Hc0).
    apply list_elem_of_singleton in Hp. simplify_eq.
    apply elem_of_seq in Hc0 as [_ Hc0]. simpl in Hr0, Hc0.
    destruct (lookup_lt_is_Some_2 b r0 Hr0) as [row Hrow].
    rewrite Hrow in Hc0. simpl in Hc0. exists row. split; [|lia].
    apply board_row_Some. split; [lia|]. by rewrite Nat2Z.id.
  - intros (row & Hrow & Hc). apply board_row_Some in Hrow as [Hr Hl].
    exists (Z.to_nat r). split.
    + apply list_elem_of_bind. exists (Z.to_nat c). split.
      * apply list_elem_of_singleton. f_equal; lia.
      * rewrite Hl. simpl. apply elem_of_seq. lia.
    + apply elem_of_seq. apply lookup_lt_Some in Hl. lia.
Qed.

Lemma elem_of_candidates b p d :
  (p, d) ∈ candidates b ↔ p ∈ positions b ∧ d ∈ DIRECTIONS.
Proof.
  unfold candidates. rewrite list_elem_of_bind. split.
  - intros (p' & Hd & Hp). apply list_elem_of_bind in Hd as (d' & Hpd & Hd).
    apply list_elem_of_singleton in Hpd. by simplify_eq.
  - intros [Hp Hd]. exists p. split; [|done].
    apply list_elem_of_bind. exists d. split; [|done].
    by apply list_elem_of_singleton.
Qed.

(** The four directions are the displacements of a jump. *)
Lemma elem_of_DIRECTIONS r c dx dy :
  (dx, dy) ∈ DIRECTIONS ↔ jump r c (r + dx) (c + dy).
Proof.
  unfold DIRECTIONS, jump.
  rewrite !elem_of_cons, elem_of_nil.
  replace (r + dx - r) with dx by lia. replace (c + dy - c) with dy by lia.
  split.
  - intros [[= -> ->] | [[= -> ->] | [[= -> ->] | [[= -> ->] | []]]]]; lia.
  - intros [[Hd ->] | [Hd ->]].
    + assert (dx = 2 ∨ dx = -2) as [-> | ->] by lia; auto.
    + assert (dy = 2 ∨ dy = -2) as [-> | ->] by lia; auto.
Qed.

Lemma NoDup_positions b : NoDup (positions b).
Proof.
  unfold positions. apply NoDup_bind; [| |apply NoDup_seq].
  - intros r1 r2 [r c] _ _ H1 H2.
    apply list_elem_of_bind in H1 as (c1 & H1 & _).
    apply list_elem_of_bind in H2 as (c2 & H2 & _).
    apply list_elem_of_singleton in H1, H2. simplify_eq. lia.
  - intros r _. apply NoDup_bind; [| |apply NoDup_seq].
    + intros c1 c2 p _ _ H1 H2.
      apply list_elem_of_singleton in H1, H2. simplify_eq. lia.
    + intros c _. apply NoDup_singleton.
Qed.

Lemma NoDup_candidates b : NoDup (candidates b).
Proof.
  unfold candidates. apply NoDup_bind; [| |apply NoDup_positions].
  - intros p1 p2 m _ _ H1 H2.
    apply list_elem_of_bind in H1 as (d1 & H1 & _).
    apply list_elem_of_bind in H2 as (d2 & H2 & _).
    apply list_elem_of_singleton in H1, H2. by simplify_eq.
  - intros p _. apply NoDup_bind.
    + intros d1 d2 m _ _ H1 H2.
      apply list_elem_of_singleton in H1, H2. by simplify_eq.
    + intros d _. apply NoDup_singleton.
    + unfold DIRECTIONS. repeat (apply NoDup_cons; split;
        [rewrite ?elem_of_cons, elem_of_nil; naive_solver|]).
      apply NoDup_nil_2.
Qed.

Lemma landing_inj : Inj (=) (=) landing.
Proof.
  intros [[r1 c1] [dx1 dy1]] [[r2 c2] [dx2 dy2]]. unfold landing. simpl.
  intros [= -> -> Hx Hy]. repeat f_equal; lia.
Qed.

(** The candidates that the scan counts are the legal jumps. *)
Lemma elem_of_available b fr fc tr tc :
  (fr, fc, (tr, tc)) ∈ landing <$> filter (λ m, available b m) (candidates b)
  ↔ legal_jump b fr fc tr tc.
Proof.
  unfold legal_jump. rewrite list_elem_of_fmap. split.
  - intros ([[r c] [dx dy]] & Heq & Hin). unfold landing in Heq.
    simpl in Heq. simplify_eq.
    apply list_elem_of_filter in Hin as [Hav Hin].
    apply elem_of_candidates in Hin as [Hp Hd].
    apply elem_of_positions in Hp. apply (elem_of_DIRECTIONS r c) in Hd.
    unfold available, can_jump, is_peg, is_empty in Hav. simpl in Hav.
    apply andb_True in Hav as [Hpeg Hav].
    apply andb_True in Hav as [Hland Hmid].
    apply bool_decide_unpack in Hpeg, Hland, Hmid.
    replace (r + dx - r) with dx by lia. replace (c + dy - c) with dy by lia.
    done.
  - intros (Hp & Hj & Hpeg & Hmid & Hland).
    exists (fr, fc, (tr - fr, tc - fc)). split.
    { unfold landing. simpl. repeat f_equal; lia. }
    apply list_elem_of_filter. split.
    + unfold available, can_jump, is_peg, is_empty. simpl.
      replace (fr + (tr - fr)) with tr by lia.
      replace (fc + (tc - fc)) with tc by lia.
      rewrite Hpeg, Hmid, Hland. by rewrite !bool_decide_eq_true_2.
    + apply elem_of_candidates. split; [by apply elem_of_positions|].
      apply (elem_of_DIRECTIONS fr fc).
      replace (fr + (tr - fr)) with tr by lia.
      by replace (fc + (tc - fc)) with tc by lia.
Qed.

(** C2.  [checkGameState] returns without changing the state, and its
    result is plain counting: [pegsRemaining] is the number of cells that
    hold a peg, [isWin] says that this number is 1, and [isGameOver] that it
    is 1 or that the number of available moves is 0.  The available moves
    are the legal jumps, each counted once: from a position of the board
    that holds a peg, two cells along a row or a column, over a cell that
    holds a peg, onto a cell that is empty; on a board that is a grid of
    cells that empty cell is a position of the board. *)
Theorem checkGameState_counts s :
  let b := board s in
  ∃ status (moves : list (Z * Z * (Z * Z))),
    run checkGameState s = (Normal status, s) ∧
    pegsRemaining status = countPegs b ∧
    (isWin status = true ↔ countPegs b = 1%nat) ∧
    (isGameOver status = true ↔
     countPegs b = 1%nat ∨ length moves = 0%nat) ∧
    NoDup moves ∧
    (∀ fr fc tr tc,
       (fr, fc, (tr, tc)) ∈ moves ↔ legal_jump b fr fc tr tc) ∧
    (∀ fr fc tr tc,
       is_grid b → legal_jump b fr fc tr tc → in_bounds b tr tc).
Proof.
  intros b.
  eexists _, (landing <$> filter (λ m, available b m) (candidates b)).
  split_and!.
  - rewrite run_checkGameState_fold. fold b.
    rewrite foldl_row_step. cbn [fst snd]. rewrite !Nat.add_0_l.
    change (seq 0 (length b) ≫= _) with (positions b).
    change (positions b ≫= _) with (candidates b).
    rewrite count_positions. reflexivity.
  - done.
  - cbn [isWin]. apply Nat.eqb_eq.
  - cbn [isGameOver]. by rewrite length_fmap, orb_true_iff, !Nat.eqb_eq.
  - apply NoDup_fmap_2; [apply landing_inj|].
    apply NoDup_filter, NoDup_candidates.
  - apply elem_of_available.
  - intros fr fc tr tc Hgrid (_ & _ & _ & _ & Hland).
    apply in_bounds_spec. unfold cell_at in Hland.
    destruct (board_row b tr) as [row|] eqn:Hrow; [|done].
    exists row. split; [done|]. simpl in Hland.
    apply board_row_Some in Hrow as [_ Hl].
    eapply Forall_lookup_1 in Hgrid as [Hp _]; [|done].
    by eapply arr_get_Some_in.
Qed.

(** *** Scenarios *)

(** The initial layout has 32 pegs and the game is not over. *)
Example scenario_initial :
  (run checkGameState (fresh_state initialBoardLayout)).1
  = Normal (mkStatus false false 32).
Proof. reflexivity. Qed.

(** Selecting [(3, 1)] and then the empty cell [(3, 3)] makes the move over
    [(3, 2)]. *)
Example scenario_first_move :
  ∃ s1 s2,
    run (selectCell 3 1) (fresh_state initialBoardLayout)
    = (Normal SELECT, s1) ∧
    run (selectCell 3 3) s1 = (Normal MOVE_SUCCESS, s2) ∧
    cell_at (board s2) 3 1 = Some EMPTY ∧
    cell_at (board s2) 3 2 = Some EMPTY ∧
    cell_at (board s2) 3 3 = Some PEG ∧
    selectedPeg s2 = None.
Proof. eexists _, _. repeat split; reflexivity. Qed.

(** With [(3, 1)] selected, [(2, 2)] is not a destination: it holds a peg,
    so that [selectCell] moves the selection there, and [tryMove] refuses
    the displacement and changes nothing. *)
Example scenario_not_aligned :
  ∃ s1,
    run (selectCell 3 1) (fresh_state initialBoardLayout)
    = (Normal SELECT, s1) ∧
    run (selectCell 2 2) s1 = (Normal SELECT, mkState (board s1) (Some (2, 2))) ∧
    run (tryMove 3 1 2 2) s1 = (Normal false, s1).
Proof. eexists. repeat split; reflexivity. Qed.

(** Selecting the same peg twice clears the selection. *)
Example scenario_toggle :
  ∃ s1,
    run (selectCell 3 1) (fresh_state initialBoardLayout)
    = (Normal SELECT, s1) ∧
    selectedPeg s1 = Some (3, 1) ∧
    run (selectCell 3 1) s1 = (Normal SELECT, fresh_state initialBoardLayout).
Proof. eexists. repeat split; reflexivity. Qed.

(** One peg left: the game is over and won. *)
Example scenario_one_peg :
  (run checkGameState
     (mkState (arr_of_list <$> [[EMPTY; EMPTY; EMPTY]; [EMPTY; PEG; EMPTY]])
              None)).1
  = Normal (mkStatus true true 1).
Proof. reflexivity. Qed.

(** Two pegs that cannot jump: the game is over and lost. *)
Example scenario_two_isolated_pegs :
  (run checkGameState
     (mkState (arr_of_list <$> [[PEG; EMPTY; EMPTY]; [EMPTY; EMPTY; PEG]])
              None)).1
  = Normal (mkStatus true false 2).
Proof. reflexivity. Qed.

(** ** Selecting cells *)

(** [selectCell], case by case. *)
Lemma run_selectCell s r c :
  run (selectCell r c) s =
  match board_row (board s) r with
  | None => (TypeError, s)
  | Some row =>
      let cell := arr_get row c in
      if is_peg cell then
        (Normal SELECT,
         mkState (board s)
           (if bool_decide (selectedPeg s = Some (r, c))
            then None else Some (r, c)))
      else
        match selectedPeg s with
        | Some (sr, sc) =>
            if is_empty cell then
              match run (tryMove sr sc r c) s with
              | (Normal true, s') => (Normal MOVE_SUCCESS, mkState (board s') None)
              | (Normal false, s') => (Normal NO_ACTION, s')
              | (TypeError, s') => (TypeError, s')
              end
            else (Normal NO_ACTION, s)
        | None => (Normal NO_ACTION, s)
        end
  end.
Proof.
  unfold selectCell. rewrite run_bind, run_read_cell.
  destruct (board_row (board s) r) as [row|]; [|done]. cbv zeta.
  destruct (is_peg (arr_get row c)); [done|].
  destruct (is_empty (arr_get row c)); [|by destruct (selectedPeg s) as [[]|]].
  rewrite run_bind. simpl run at 1. cbv beta iota.
  destruct (selectedPeg s) as [[sr sc]|]; [|done].
  rewrite run_bind.
  destruct (run (tryMove sr sc r c) s) as [[[|]|] s']; done.
Qed.

Lemma no_stray_in_bounds b r c x :
  no_stray b → cell_at b r c = Some x → in_bounds b r c.
Proof.
  intros Hns Hx. apply cell_at_in_bounds with x; [|done].
  destruct (decide (c < 0)) as [Hc|]; [|lia].
  by rewrite (Hns r c Hc) in Hx.
Qed.

Lemma is_grid_no_stray b : is_grid b → no_stray b.
Proof.
  intros Hgrid r c Hc. unfold cell_at.
  destruct (board_row b r) as [row|] eqn:Hrow; [|done]. simpl.
  apply board_row_Some in Hrow as [_ Hl].
  eapply Forall_lookup_1 in Hgrid as [Hp _]; [|done].
  unfold arr_get. destruct (Z.ltb_spec c 0); [|lia]. by rewrite Hp.
Qed.

(** The cells of a board whose rows were copied. *)
Lemma cell_at_copy (b : list JsArray) r c :
  cell_at (arr_copy <$> b) r c = if decide (c < 0) then None else cell_at b r c.
Proof.
  unfold cell_at, board_row. destruct (r <? 0); [by case_decide|].
  rewrite list_lookup_fmap. destruct (b !! Z.to_nat r) as [row|]; simpl;
    [|by case_decide].
  unfold arr_get, arr_copy. simpl.
  destruct (Z.ltb_spec c 0); case_decide; try lia; done.
Qed.

Lemma cell_at_copy_no_stray (b : list JsArray) r c :
  no_stray b → cell_at (arr_copy <$> b) r c = cell_at b r c.
Proof.
  intros Hns. rewrite (cell_at_copy b). case_decide; [|done]. by rewrite Hns.
Qed.

Lemma arr_copy_grid (b : list JsArray) : is_grid b → arr_copy <$> b = b.
Proof.
  intros Hgrid. apply list_eq. intros i. rewrite list_lookup_fmap.
  destruct (b !! i) as [row|] eqn:Hrow; [|done]. simpl.
  eapply Forall_lookup_1 in Hgrid as [Hp _]; [|done].
  destruct row. unfold arr_copy. simpl in *. by subst.
Qed.

Lemma elems_copy (b : list JsArray) :
  elems <$> (arr_copy <$> b) = elems <$> b.
Proof. rewrite <- list_fmap_compose. done. Qed.

Section Invariant.
(** The layout the originator was built from. *)
Variable layout : list JsArray.
Hypothesis layout_no_stray : no_stray layout.

Lemma good_fresh_state : good_state layout (fresh_state layout).
Proof.
  split; unfold fresh_state; cbn [board selectedPeg].
  - intros r c Hc. rewrite (cell_at_copy layout). by rewrite decide_True.
  - by intros r c.
  - intros r c. by rewrite (cell_at_copy_no_stray layout).
Qed.

(** A copy of a good state is good: this is what [save] stores and what
    [restore] sets up. *)
Lemma good_copy s :
  good_state layout s →
  good_state layout (mkState (arr_copy <$> board s) (selectedPeg s)).
Proof.
  intros [Hns Hsel Hinv]. split; cbn [board selectedPeg].
  - intros r c Hc. rewrite (cell_at_copy (board s)). by rewrite decide_True.
  - intros r c Hrc. cbn [selectedPeg] in Hrc.
    rewrite (cell_at_copy_no_stray (board s)) by done. by apply Hsel.
  - intros r c. rewrite (cell_at_copy_no_stray (board s)) by done.
    apply Hinv.
Qed.

(** In a good state [selectCell] makes a move only from a peg, over a peg,
    onto an empty cell, all three on the board. *)
Lemma selectCell_move s r c s' :
  good_state layout s →
  run (selectCell r c) s = (Normal MOVE_SUCCESS, s') →
  ∃ fr fc s1,
    selectedPeg s = Some (fr, fc) ∧
    in_bounds (board s) fr fc ∧ in_bounds (board s) r c ∧
    jump fr fc r c ∧
    cell_at (board s) fr fc = Some PEG ∧
    cell_at (board s) (fr + (r - fr) / 2) (fc + (c - fc) / 2) = Some PEG ∧
    cell_at (board s) r c = Some EMPTY ∧
    run (tryMove fr fc r c) s = (Normal true, s1) ∧
    s' = mkState (board s1) None.
Proof.
  intros [Hns Hsel Hinv]. rewrite run_selectCell.
  destruct (board_row (board s) r) as [row|] eqn:Hrow; [|done]. cbv zeta.
  destruct (is_peg (arr_get row c)); [done|].
  destruct (selectedPeg s) as [[fr fc]|] eqn:Hs; [|done].
  unfold is_empty. case_bool_decide as Hempty; [|done].
  assert (cell_at (board s) r c = Some EMPTY) as Hto
    by (unfold cell_at; by rewrite Hrow).
  pose proof (Hsel _ _ Hs) as Hfrom.
  pose proof (no_stray_in_bounds _ _ _ _ Hns Hfrom) as Hf.
  pose proof (no_stray_in_bounds _ _ _ _ Hns Hto) as Ht.
  destruct (tryMove_cases s fr fc r c Hf Ht)
    as (ok & s1 & Hrun & Hok & _).
  rewrite Hrun. destruct ok; [|done]. intros [= <-].
  destruct Hok as [Hok _]. destruct (Hok eq_refl) as [Hj Hmid].
  exists fr, fc, s1. done.
Qed.

(** [selectCell] keeps a good state good, whatever it answers. *)
Lemma selectCell_good s r c res s' :
  good_state layout s → run (selectCell r c) s = (res, s') → good_state layout s'.
Proof.
  intros Hgood Hrun. pose proof Hgood as [Hns Hsel Hinv].
  destruct (decide (res = Normal MOVE_SUCCESS)) as [-> | Hres].
  - destruct (selectCell_move s r c s' Hgood Hrun)
      as (fr & fc & s1 & Hs & Hf & Ht & Hj & Hfrom & Hmid & Hto & Hrun1 & ->).
    destruct (tryMove_legal_cells s fr fc r c Hf Ht Hj Hmid)
      as (s1' & Hrun1' & _ & _ & Hcells).
    rewrite Hrun1 in Hrun1'. simplify_eq.
    split; cbn [board selectedPeg].
    + intros r' c' Hc'. rewrite Hcells.
      apply in_bounds_spec in Hf as (? & _ & ?), Ht as (? & _ & ?).
      pose proof (jump_mid_col (board s) fr fc r c Hj) as Hmc.
      repeat case_decide; try lia; [|by apply Hns].
      destruct_and!. subst.
      assert (in_bounds (board s) fr fc) as Hf'
        by (by eapply no_stray_in_bounds).
      assert (in_bounds (board s) r c) as Ht'
        by (by eapply no_stray_in_bounds).
      specialize (Hmc Hf' Ht'). lia.
    + by intros ??.
    + intros r' c'. cbn [board]. rewrite Hcells.
      etransitivity; [|apply Hinv].
      repeat case_decide; destruct_and?; subst; try done;
        rewrite ?Hto, ?Hmid, ?Hfrom; naive_solver.
  - revert Hrun. rewrite run_selectCell.
    destruct (board_row (board s) r) as [row|] eqn:Hrow;
      [|by intros [= <- <-]].
    cbv zeta. unfold is_peg at 1. case_bool_decide as Hpeg.
    { assert (cell_at (board s) r c = Some PEG) as Hcell
        by (unfold cell_at; by rewrite Hrow).
      intros [= <- <-]. split; cbn [board selectedPeg]; [done| |done].
      intros r' c' Hrc. cbn [selectedPeg] in Hrc.
      case_bool_decide; by simplify_eq. }
    destruct (selectedPeg s) as [[fr fc]|] eqn:Hs; [|by intros [= <- <-]].
    unfold is_empty. case_bool_decide as Hempty; [|by intros [= <- <-]].
    assert (cell_at (board s) r c = Some EMPTY) as Hto
      by (unfold cell_at; by rewrite Hrow).
    pose proof (Hsel _ _ Hs) as Hfrom.
    pose proof (no_stray_in_bounds _ _ _ _ Hns Hfrom) as Hf.
    pose proof (no_stray_in_bounds _ _ _ _ Hns Hto) as Ht.
    destruct (tryMove_cases s fr fc r c Hf Ht)
      as (ok & s1 & Hrun & _ & _ & Hfail).
    rewrite Hrun. destruct ok; [by intros [= <- <-]|].
    intros [= <- <-]. by rewrite Hfail.
Qed.
End Invariant.

(** ** The invariant of the running script *)

Section WorldInvariant.
Variable layout : list JsArray.
Hypothesis layout_no_stray : no_stray layout.

Lemma preserves_wret {A} (a : A) : preserves layout (wret a).
Proof. by intros w res w' Hw [= _ <-]. Qed.

Lemma preserves_wbind {A B} (m : W A) (f : A → W B) :
  preserves layout m → (∀ a, preserves layout (f a)) → preserves layout (wbind m f).
Proof.
  intros Hm Hf w res w' Hw. unfold wbind.
  destruct (m w) as [[a|] w1] eqn:Hmw.
  - intros Hfw. eapply Hf; [|done]. by eapply Hm.
  - intros [= _ <-]. by eapply Hm.
Qed.

Lemma preserves_update (f : World → World) :
  (∀ w, good_world layout w → good_world layout (f w)) →
  preserves layout (λ w, (Normal (), f w)).
Proof. intros Hf w res w' Hw [= _ <-]. by apply Hf. Qed.

Lemma good_set_mementos ms w : good_world layout w → good_world layout (set_mementos ms w).
Proof. by intros []. Qed.

Lemma good_set_gameStarted g w :
  good_world layout w → good_world layout (set_gameStarted g w).
Proof. by intros []. Qed.

Lemma good_set_heap_insert l s w :
  good_world layout w → good_state layout s →
  good_world layout (set_heap (<[l := s]> (heap w)) w).
Proof.
  intros [Hl Hst Hh] Hs. split; simpl; [done| |].
  - by rewrite length_insert.
  - apply Forall_insert; done.
Qed.

Lemma preserves_on_state {A} (p : Prog A) :
  (∀ s res s', good_state layout s → run p s = (res, s') →
               good_state layout s') →
  preserves layout (on_state p).
Proof.
  intros Hp w res w' Hw. unfold on_state, on_object.
  destruct (heap w !! o_state (originator w)) as [s|] eqn:Hs;
    [|by intros [= _ <-]].
  destruct (run p s) as [res1 s1] eqn:Hrun. intros [= _ <-].
  apply good_set_heap_insert; [done|].
  eapply Hp; [|done]. destruct Hw as [_ _ Hh].
  by eapply Forall_lookup_1 in Hh.
Qed.

Lemma preserves_selectCell r c : preserves layout (on_state (selectCell r c)).
Proof.
  apply preserves_on_state. intros s res s'. by apply selectCell_good.
Qed.

Lemma preserves_checkGameState : preserves layout (on_state checkGameState).
Proof.
  apply preserves_on_state. intros s res s' Hs.
  rewrite run_checkGameState_fold. by intros [= _ <-].
Qed.

Lemma preserves_read_cell r c : preserves layout (on_state (read_cell r c)).
Proof.
  apply preserves_on_state. intros s res s' Hs. rewrite run_read_cell.
  destruct (board_row _ _); by intros [= _ <-].
Qed.

Lemma preserves_get_selectedPeg : preserves layout (on_state get_selectedPeg).
Proof. apply preserves_on_state. by intros s res s' Hs [= _ <-]. Qed.

Lemma preserves_restartGame : preserves layout restartGame.
Proof.
  intros w res w' Hw. unfold restartGame. apply preserves_on_state; [|done].
  intros s res1 s1 _ [= _ <-]. destruct Hw as [-> _ _].
  by apply good_fresh_state.
Qed.

Lemma preserves_save date : preserves layout (save date).
Proof.
  intros w res w' Hw. unfold save, new_ConcreteMemento.
  destruct (heap w !! o_state (originator w)) as [s|] eqn:Hs;
    [|by intros [= _ <-]].
  intros [= _ <-]. destruct Hw as [Hl Hst Hh]. split; simpl; [done| |].
  - rewrite length_app. lia.
  - apply Forall_app. split; [done|]. apply Forall_singleton.
    apply good_copy. by eapply Forall_lookup_1 in Hh.
Qed.

Lemma preserves_restore m : preserves layout (restore m).
Proof.
  intros w res w' Hw. unfold restore, wbind, deref.
  destruct (heap w !! getState m) as [saved|] eqn:Hsaved;
    [|by intros [= _ <-]].
  apply preserves_on_state; [|done].
  intros s res1 s1 _ [= _ <-].
  apply good_copy. destruct Hw as [_ _ Hh].
  by eapply Forall_lookup_1 in Hh.
Qed.

Lemma preserves_backup date : preserves layout (backup date).
Proof.
  apply preserves_wbind; [apply preserves_save|].
  intros m. apply preserves_update. intros w. apply good_set_mementos.
Qed.

Lemma preserves_undo : preserves layout undo.
Proof.
  intros w res w' Hw. unfold undo.
  destruct (last (mementos w)) as [m|]; [|by intros [= _ <-]].
  apply preserves_restore. by apply good_set_mementos.
Qed.

Lemma preserves_checkGameStatus : preserves layout checkGameStatus.
Proof.
  apply preserves_wbind; [apply preserves_checkGameState|].
  intros status. destruct (isGameOver status); [|apply preserves_wret].
  apply preserves_update. intros w. apply good_set_gameStarted.
Qed.

Lemma preserves_handleCellClick date r c :
  preserves layout (handleCellClick date r c).
Proof.
  intros w res w'. unfold handleCellClick.
  destruct (negb (gameStarted w)); [by intros ? [= _ <-]|].
  revert w res w'.
  apply preserves_wbind; [apply preserves_read_cell|]. intros cell.
  apply preserves_wbind; [apply preserves_get_selectedPeg|]. intros sel.
  apply preserves_wbind.
  { destruct (_ && _); [apply preserves_backup | apply preserves_wret]. }
  intros _.
  apply preserves_wbind; [apply preserves_selectCell|]. intros result.
  repeat case_bool_decide;
    first [apply preserves_checkGameStatus | apply preserves_wret].
Qed.

Lemma preserves_startGame : preserves layout startGame.
Proof.
  apply preserves_wbind.
  { apply preserves_update. intros w. apply good_set_gameStarted. }
  intros _. apply preserves_wbind; [apply preserves_restartGame|].
  intros _. apply preserves_update. intros w. apply good_set_mementos.
Qed.

Lemma preserves_resetUI : preserves layout resetUI.
Proof.
  apply preserves_wbind.
  { apply preserves_update. intros w. apply good_set_gameStarted. }
  intros _. apply preserves_wbind; [apply preserves_restartGame|].
  intros _. apply preserves_update. intros w. apply good_set_mementos.
Qed.

Lemma preserves_handle g : preserves layout (handle g).
Proof.
  destruct g; simpl.
  - apply preserves_handleCellClick.
  - apply preserves_startGame.
  - apply preserves_undo.
  - apply preserves_wret.
  - apply preserves_resetUI.
Qed.

Lemma good_serve q w : good_world layout w → good_world layout (serve q w).
Proof.
  intros Hw. destruct q; simpl.
  - eapply preserves_selectCell; [done|apply surjective_pairing].
  - eapply preserves_checkGameState; [done|apply surjective_pairing].
  - eapply preserves_restartGame; [done|apply surjective_pairing].
  - eapply preserves_save; [done|apply surjective_pairing].
  - eapply preserves_restore; [done|apply surjective_pairing].
  - eapply preserves_backup; [done|apply surjective_pairing].
  - eapply preserves_undo; [done|apply surjective_pairing].
  - eapply preserves_handle; [done|apply surjective_pairing].
Qed.
End WorldInvariant.

Lemma initialBoardLayout_grid : is_grid initialBoardLayout.
Proof. unfold is_grid. repeat constructor; simpl; eauto. Qed.

Lemma initialBoardLayout_no_stray : no_stray initialBoardLayout.
Proof. apply is_grid_no_stray, initialBoardLayout_grid. Qed.

Lemma good_initial_world : good_world initialBoardLayout initial_world.
Proof.
  split; simpl; [done|lia|]. apply Forall_singleton.
  apply good_fresh_state, initialBoardLayout_no_stray.
Qed.

(** Every world the script can be brought to is good. *)
Lemma good_reach qs : good_world initialBoardLayout (reach qs).
Proof.
  unfold reach. induction qs as [|q qs IH] using rev_ind.
  - apply good_initial_world.
  - rewrite foldl_app. simpl.
    by apply good_serve; [apply initialBoardLayout_no_stray|].
Qed.

(** The state object of the originator in a good world. *)
Lemma good_world_state layout w :
  good_world layout w →
  ∃ s, heap w !! o_state (originator w) = Some s ∧ good_state layout s.
Proof.
  intros [_ Hst Hh].
  destruct (lookup_lt_is_Some_2 _ _ Hst) as [s Hs].
  exists s. split; [done|]. by eapply Forall_lookup_1 in Hh.
Qed.

(** C5.  In every world reached from the script as loaded, by any sequence
    of [selectCell], [checkGameState], [restartGame], [save], [restore],
    [backup] and [undo] calls and of gestures on the page, the originator
    has one selection at most, and a selection is a position of the board
    whose cell holds a peg. *)
Theorem selection_invariant qs :
  let w := reach qs in
  ∃ s, heap w !! o_state (originator w) = Some s ∧
       (∀ p q, selectedPeg s = Some p → selectedPeg s = Some q → p = q) ∧
       (∀ r c, selectedPeg s = Some (r, c) →
               in_bounds (board s) r c ∧ cell_at (board s) r c = Some PEG).
Proof.
  intros w.
  destruct (good_world_state _ w (good_reach qs)) as (s & Hs & Hgood).
  exists s. split; [done|]. split; [congruence|].
  intros r c Hsel. destruct Hgood as [Hns Hpeg _].
  pose proof (Hpeg _ _ Hsel). split; [|done].
  by eapply no_stray_in_bounds.
Qed.

(** ** Cells outside the board *)

(** C6, as stated, fails for [tryMove]: it neither checks the origin nor
    the destination.  On the initial board the direct call
    [tryMove(0, 1, 0, 3)] is accepted and turns the ['-'] cell [(0, 1)]
    into [0], and [tryMove(0, 3, 0, 5)] is accepted and turns the ['-']
    cell [(0, 5)] into [1]. *)
Lemma tryMove_overwrites_invalid :
  let s := fresh_state initialBoardLayout in
  (∃ s', run (tryMove 0 1 0 3) s = (Normal true, s') ∧
         cell_at (board s) 0 1 = Some INVALID ∧
         cell_at (board s') 0 1 = Some EMPTY) ∧
  (∃ s', run (tryMove 0 3 0 5) s = (Normal true, s') ∧
         cell_at (board s) 0 5 = Some INVALID ∧
         cell_at (board s') 0 5 = Some PEG).
Proof. split; eexists; (split; [reflexivity|]); split; reflexivity. Qed.

(** C6, amended.  In every world reached from the script as loaded, by any
    sequence of [selectCell], [checkGameState], [restartGame], [save],
    [restore], [backup] and [undo] calls and of gestures on the page, the
    cells that hold ['-'] are exactly those of the initial layout, so none
    of them ever changes; and a move that [selectCell] makes there goes
    from a peg over a peg onto an empty cell, so no ['-'] cell is its
    origin, midpoint or destination. *)
Theorem invalid_cells_inert qs :
  let w := reach qs in
  ∃ s, heap w !! o_state (originator w) = Some s ∧
       (∀ r c, cell_at (board s) r c = Some INVALID ↔
               cell_at initialBoardLayout r c = Some INVALID) ∧
       (∀ r c s',
          run (selectCell r c) s = (Normal MOVE_SUCCESS, s') →
          ∃ fr fc,
            selectedPeg s = Some (fr, fc) ∧
            cell_at (board s) fr fc = Some PEG ∧
            cell_at (board s) (fr + (r - fr) / 2) (fc + (c - fc) / 2)
            = Some PEG ∧
            cell_at (board s) r c = Some EMPTY).
Proof.
  intros w.
  destruct (good_world_state _ w (good_reach qs)) as (s & Hs & Hgood).
  exists s. split; [done|]. split; [apply Hgood|].
  intros r c s' Hrun.
  destruct (selectCell_move _ s r c s' Hgood Hrun)
    as (fr & fc & s1 & ? & _ & _ & _ & ? & ? & ? & _).
  by exists fr, fc.
Qed.

(** ** Coordinates outside the board *)

(** C7, as stated, fails: for a row index outside the board, [board[r]] is
    [undefined] and reading [board[r][c]] throws.  On the initial state
    [selectCell(-1, 0)] and [selectCell(7, 0)] end in a [TypeError]. *)
Lemma selectCell_throws_outside_rows :
  let s := fresh_state initialBoardLayout in
  run (selectCell (-1) 0) s = (TypeError, s) ∧
  run (selectCell 7 0) s = (TypeError, s).
Proof. split; reflexivity. Qed.

(** C7, amended.  In every world reached from the script as loaded,
    [selectCell(r, c)] with a row index [r] inside the board returns an
    action for every column [c], and for a column outside the row the
    action is [NO_ACTION] and the state is unchanged; with a row index
    outside the board it throws a [TypeError] and the state is
    unchanged. *)
Theorem selectCell_outside_columns qs r c :
  let w := reach qs in
  ∃ s, heap w !! o_state (originator w) = Some s ∧
       (0 ≤ r < Z.of_nat (length (board s)) →
        ∃ a s', run (selectCell r c) s = (Normal a, s') ∧
                (¬ in_bounds (board s) r c → a = NO_ACTION ∧ s' = s)) ∧
       (¬ 0 ≤ r < Z.of_nat (length (board s)) →
        run (selectCell r c) s = (TypeError, s)).
Proof.
  intros w.
  destruct (good_world_state _ w (good_reach qs)) as (s & Hs & Hgood).
  exists s. split; [done|]. pose proof Hgood as [Hns Hsel _]. split.
  - intros Hr. destruct (board_row_lt _ _ Hr) as [row Hrow].
    rewrite run_selectCell, Hrow. cbv zeta.
    assert (∀ x, arr_get row c = Some x → in_bounds (board s) r c) as Hin.
    { intros x Hx. apply no_stray_in_bounds with x; [done|].
      unfold cell_at. by rewrite Hrow. }
    unfold is_peg. case_bool_decide as Hpeg.
    { eexists _, _. split; [done|]. intros Hout. destruct Hout. eauto. }
    destruct (selectedPeg s) as [[fr fc]|] eqn:Hs';
      [|by eexists _, _].
    unfold is_empty. case_bool_decide as Hempty; [|by eexists _, _].
    assert (cell_at (board s) r c = Some EMPTY) as Hto
      by (unfold cell_at; by rewrite Hrow).
    pose proof (Hsel _ _ Hs') as Hfrom.
    pose proof (no_stray_in_bounds _ _ _ _ Hns Hfrom) as Hf.
    pose proof (no_stray_in_bounds _ _ _ _ Hns Hto) as Ht.
    destruct (tryMove_cases s fr fc r c Hf Ht)
      as (ok & s1 & Hrun & _ & _ & Hfail).
    rewrite Hrun. destruct ok; eexists _, _; (split; [done|]); by intros [].
  - intros Hr. by rewrite run_selectCell, board_row_None.
Qed.

(** ** Snapshots and the live state *)

Section Keeps.
Variable l : loc.

Lemma keeps_wret {A} (a : A) : keeps l (wret a).
Proof. by intros w res w' ?? [= _ <-]. Qed.

Lemma keeps_wbind {A B} (m : W A) (f : A → W B) :
  keeps l m → (∀ a, keeps l (f a)) → keeps l (wbind m f).
Proof.
  intros Hm Hf w res w' Hl Hne. unfold wbind.
  destruct (m w) as [[a|] w1] eqn:Hmw.
  - intros Hfw. destruct (Hm _ _ _ Hl Hne Hmw) as (H1 & H2 & H3).
    destruct (Hf a w1 res w') as (H4 & H5 & H6);
      [lia|by rewrite H2|done|].
    split_and!; [congruence|congruence|lia].
  - intros [= _ <-]. by eapply Hm.
Qed.

Lemma keeps_update (f : World → World) :
  (∀ w, heap (f w) = heap w ∧ originator (f w) = originator w) →
  keeps l (λ w, (Normal (), f w)).
Proof.
  intros Hf w res w' _ _ [= _ <-]. destruct (Hf w) as [-> ->]. done.
Qed.

Lemma keeps_on_state {A} (p : Prog A) : keeps l (on_state p).
Proof.
  intros w res w' Hl Hne. unfold on_state, on_object.
  destruct (heap w !! o_state (originator w)) as [s|];
    [|by intros [= _ <-]].
  destruct (run p s) as [res1 s1]. intros [= _ <-]. simpl.
  rewrite list_lookup_insert_ne by done. by rewrite length_insert.
Qed.

Lemma keeps_save date : keeps l (save date).
Proof.
  intros w res w' Hl Hne. unfold save, new_ConcreteMemento.
  destruct (heap w !! o_state (originator w)) as [s|];
    [|by intros [= _ <-]].
  intros [= _ <-]. simpl. rewrite lookup_app_l by done.
  rewrite length_app. split_and!; [done|done|lia].
Qed.

Lemma keeps_restore m : keeps l (restore m).
Proof.
  intros w res w' Hl Hne. unfold restore, wbind, deref.
  destruct (heap w !! getState m) as [saved|]; [|by intros [= _ <-]].
  by apply keeps_on_state.
Qed.

Lemma keeps_restartGame : keeps l restartGame.
Proof. intros w res w' Hl Hne. unfold restartGame. by apply keeps_on_state. Qed.

Lemma keeps_backup date : keeps l (backup date).
Proof.
  apply keeps_wbind; [apply keeps_save|]. intros m. by apply keeps_update.
Qed.

Lemma keeps_undo : keeps l undo.
Proof.
  intros w res w' Hl Hne. unfold undo.
  destruct (last (mementos w)) as [m|]; [|by intros [= _ <-]].
  intros Hr. by apply keeps_restore in Hr.
Qed.

Lemma keeps_checkGameStatus : keeps l checkGameStatus.
Proof.
  apply keeps_wbind; [apply keeps_on_state|].
  intros status. destruct (isGameOver status); [|apply keeps_wret].
  by apply keeps_update.
Qed.

Lemma keeps_handleCellClick date r c : keeps l (handleCellClick date r c).
Proof.
  intros w res w'. unfold handleCellClick.
  destruct (negb (gameStarted w)); [by intros ?? [= _ <-]|].
  revert w res w'.
  apply keeps_wbind; [apply keeps_on_state|]. intros cell.
  apply keeps_wbind; [apply keeps_on_state|]. intros sel.
  apply keeps_wbind.
  { destruct (_ && _); [apply keeps_backup | apply keeps_wret]. }
  intros _.
  apply keeps_wbind; [apply keeps_on_state|]. intros result.
  repeat case_bool_decide;
    first [apply keeps_checkGameStatus | apply keeps_wret].
Qed.

Lemma keeps_startGame : keeps l startGame.
Proof.
  apply keeps_wbind; [by apply keeps_update|].
  intros _. apply keeps_wbind; [apply keeps_restartGame|].
  intros _. by apply keeps_update.
Qed.

Lemma keeps_resetUI : keeps l resetUI.
Proof.
  apply keeps_wbind; [by apply keeps_update|].
  intros _. apply keeps_wbind; [apply keeps_restartGame|].
  intros _. by apply keeps_update.
Qed.

Lemma keeps_handle g : keeps l (handle g).
Proof.
  destruct g; simpl.
  - apply keeps_handleCellClick.
  - apply keeps_startGame.
  - apply keeps_undo.
  - apply keeps_wret.
  - apply keeps_resetUI.
Qed.
End Keeps.

Lemma keeps_mutate l mu w :
  (l < length (heap w))%nat → l ≠ o_state (originator w) →
  heap (mutate mu w) !! l = heap w !! l ∧
  originator (mutate mu w) = originator w ∧
  (length (heap w) ≤ length (heap (mutate mu w)))%nat.
Proof.
  intros Hl Hne. destruct mu as [A p | q]; simpl.
  - eapply keeps_on_state; [done..|apply surjective_pairing].
  - destruct q; simpl;
      [ eapply keeps_on_state | eapply keeps_on_state
      | eapply keeps_restartGame | eapply keeps_save | eapply keeps_restore
      | eapply keeps_backup | eapply keeps_undo | eapply keeps_handle ];
      first [done | apply surjective_pairing].
Qed.

Lemma keeps_mutations l muts w :
  (l < length (heap w))%nat → l ≠ o_state (originator w) →
  heap (foldl (λ w mu, mutate mu w) w muts) !! l = heap w !! l.
Proof.
  revert w. induction muts as [|mu muts IH]; intros w Hl Hne; [done|].
  simpl. destruct (keeps_mutate l mu w Hl Hne) as (H1 & H2 & H3).
  rewrite IH; [done|lia|by rewrite H2].
Qed.

(** What [save] does: a new state object, a copy of the live one. *)
Lemma save_spec date w s :
  heap w !! o_state (originator w) = Some s →
  save date w
  = (Normal (mkMemento (length (heap w)) date),
     set_heap (heap w ++ [json_clone s]) w).
Proof. intros Hs. unfold save, new_ConcreteMemento. by rewrite Hs. Qed.

(** C8, as stated, fails: [getState] returns [this.state], the object the
    memento holds, not a copy of it.  After a [save] of the initial state,
    the assignment [memento.getState().board[3][3] = 1] changes the cell
    that the memento has stored from [0] to [1]. *)
Lemma getState_exposes_snapshot :
  ∃ m w1 w2 s1 s2,
    save "2026-01-01 00:00:00" initial_world = (Normal m, w1) ∧
    getState m = m_state m ∧
    on_object (getState m) (write_cell 3 3 PEG) w1 = (Normal (), w2) ∧
    heap w1 !! m_state m = Some s1 ∧ cell_at (board s1) 3 3 = Some EMPTY ∧
    heap w2 !! m_state m = Some s2 ∧ cell_at (board s2) 3 3 = Some PEG.
Proof.
  eexists _, _, _, _, _. split; [reflexivity|]. split; [reflexivity|].
  split; [reflexivity|]. split; [reflexivity|]. split; [reflexivity|].
  split; reflexivity.
Qed.

(** C8, amended.  [save] stores a copy of the live state, cell for cell and
    with the same selection, in a new object that is not the originator's
    state object; and whatever acts on the live state afterwards (methods
    of the originator such as [selectCell] or [tryMove], [restartGame],
    [restore], which copies out of a memento, further [save]s, [undo],
    gestures) leaves the board and the selection that the memento stores
    unchanged.  [getState] itself returns the stored object, not a copy. *)
Theorem snapshot_isolated w date s m w1 muts :
  heap w !! o_state (originator w) = Some s →
  save date w = (Normal m, w1) →
  getState m ≠ o_state (originator w1) ∧
  heap w !! getState m = None ∧
  ∃ stored,
    heap w1 !! getState m = Some stored ∧
    elems <$> board stored = elems <$> board s ∧
    selectedPeg stored = selectedPeg s ∧
    heap (foldl (λ w mu, mutate mu w) w1 muts) !! getState m = Some stored.
Proof.
  intros Hs. rewrite (save_spec _ _ _ Hs). intros [= <- <-].
  pose proof (lookup_lt_Some _ _ _ Hs) as Hlt.
  unfold getState. simpl.
  split; [lia|]. split; [by apply lookup_ge_None_2|].
  exists (json_clone s).
  assert ((heap w ++ [json_clone s]) !! length (heap w) = Some (json_clone s))
    as Hstored.
  { rewrite lookup_app_r by lia. by rewrite Nat.sub_diag. }
  split; [done|]. split; [apply elems_copy|]. split; [done|].
  rewrite keeps_mutations; simpl; [done| |lia].
  rewrite length_app. simpl. lia.
Qed.

Lemma snapshot_isolated_witness :
  let w := initial_world in
  let date := "2026-01-01 00:00:00" in
  let muts := [ByRequest (ReqGesture StartRestart);
             ByRequest (ReqSelectCell 3 1);
             ByMethod bool (tryMove 3 1 3 3)] in
  let m := mkMemento 1%nat date in
  getState m ≠ o_state (originator (save date w).2) ∧
  heap w !! getState m = None ∧
  ∃ stored,
    heap (save date w).2 !! getState m = Some stored ∧
    elems <$> board stored = elems <$> board (fresh_state initialBoardLayout) ∧
    selectedPeg stored = selectedPeg (fresh_state initialBoardLayout) ∧
    heap (foldl (λ w mu, mutate mu w) (save date w).2 muts) !! getState m
    = Some stored.
Proof.
  exact (snapshot_isolated initial_world "2026-01-01 00:00:00"
           (fresh_state initialBoardLayout) _ _ _ eq_refl eq_refl).
Defined.

(** ** Undo *)

(** What [restore] does: the live state becomes a copy of the stored one. *)
Lemma restore_spec m w saved s :
  heap w !! getState m = Some saved →
  heap w !! o_state (originator w) = Some s →
  restore m w
  = (Normal (),
     set_heap (<[o_state (originator w) :=
                  mkState (arr_copy <$> board saved) (selectedPeg saved)]>
                 (heap w)) w).
Proof.
  intros Hsaved Hs. unfold restore, wbind, deref. rewrite Hsaved.
  unfold on_state, on_object. by rewrite Hs.
Qed.

Lemma round_trip_same s :
  elems <$> board (round_trip s) = elems <$> board s ∧
  selectedPeg (round_trip s) = selectedPeg s ∧
  (is_grid (board s) → round_trip s = s).
Proof.
  unfold round_trip. cbn [board selectedPeg].
  split; [by rewrite !elems_copy|]. split; [done|].
  intros Hgrid. rewrite !(arr_copy_grid _ Hgrid). by destruct s.
Qed.

(** [restore] right after [save]. *)
Lemma restore_save date w s :
  heap w !! o_state (originator w) = Some s →
  ∃ w', (let* m := save date in restore m)%W w = (Normal (), w') ∧
        originator w' = originator w ∧ mementos w' = mementos w ∧
        heap w' !! o_state (originator w) = Some (round_trip s).
Proof.
  intros Hs. pose proof (lookup_lt_Some _ _ _ Hs) as Hlt.
  unfold wbind. rewrite (save_spec _ _ _ Hs).
  erewrite restore_spec; cycle 1.
  - unfold getState. simpl. rewrite lookup_app_r by lia.
    by rewrite Nat.sub_diag.
  - simpl. by rewrite lookup_app_l.
  - eexists. split; [done|]. simpl. split; [done|]. split; [done|].
    rewrite list_lookup_insert_eq; [done|]. rewrite length_app. lia.
Qed.

(** What [backup] does: the snapshot of [save] goes to the end of the
    history. *)
Lemma backup_spec date w s :
  heap w !! o_state (originator w) = Some s →
  backup date w
  = (Normal (),
     set_mementos (mementos w ++ [mkMemento (length (heap w)) date])
                  (set_heap (heap w ++ [json_clone s]) w)).
Proof. intros Hs. unfold backup, wbind. by rewrite (save_spec _ _ _ Hs). Qed.

Lemma on_state_spec {A} (p : Prog A) w s :
  heap w !! o_state (originator w) = Some s →
  on_state p w
  = ((run p s).1,
     set_heap (<[o_state (originator w) := (run p s).2]> (heap w)) w).
Proof.
  intros Hs. unfold on_state, on_object. rewrite Hs. by destruct (run p s).
Qed.

(** [backup], then any method of the originator that returns, then [undo]:
    the live state is again what it was, and so is the history. *)
Lemma undo_after_backup {A} (p : Prog A) date w s a s1 :
  heap w !! o_state (originator w) = Some s →
  run p s = (Normal a, s1) →
  ∃ w', (backup date ;; on_state p ;; undo)%W w = (Normal (), w') ∧
        originator w' = originator w ∧ mementos w' = mementos w ∧
        heap w' !! o_state (originator w) = Some (round_trip s).
Proof.
  intros Hs Hrun. pose proof (lookup_lt_Some _ _ _ Hs) as Hlt.
  unfold wbind. rewrite (backup_spec _ _ _ Hs).
  erewrite on_state_spec by (simpl; by rewrite lookup_app_l).
  rewrite Hrun. cbn [fst snd].
  unfold undo. cbn [mementos set_heap set_mementos].
  rewrite last_snoc, removelast_last.
  erewrite restore_spec; cycle 1.
  - unfold getState. simpl. rewrite list_lookup_insert_ne by lia.
    rewrite lookup_app_r by lia. by rewrite Nat.sub_diag.
  - simpl. rewrite list_lookup_insert_eq; [done|]. rewrite length_app. lia.
  - eexists. split; [done|]. simpl. split; [done|]. split; [done|].
    rewrite list_lookup_insert_eq; [done|].
    rewrite length_insert, length_app. lia.
Qed.

(** C3.  From every state of the originator, [restore(save())] gives back
    the same cells, row by row, and the same selection; and when a
    snapshot is taken with [backup], [selectCell] then makes a move, and
    [undo] follows, the cells and the selection are again those from
    before the move and the history is the one from before the backup.
    On a board that is a grid of cells the state is the same altogether. *)
Theorem undo_round_trip w date s :
  heap w !! o_state (originator w) = Some s →
  (∃ w' s',
     (let* m := save date in restore m)%W w = (Normal (), w') ∧
     heap w' !! o_state (originator w') = Some s' ∧
     elems <$> board s' = elems <$> board s ∧
     selectedPeg s' = selectedPeg s ∧
     (is_grid (board s) → s' = s)) ∧
  (∀ r c s1,
     run (selectCell r c) s = (Normal MOVE_SUCCESS, s1) →
     ∃ w' s',
       (backup date ;; on_state (selectCell r c) ;; undo)%W w
       = (Normal (), w') ∧
       mementos w' = mementos w ∧
       heap w' !! o_state (originator w') = Some s' ∧
       elems <$> board s' = elems <$> board s ∧
       selectedPeg s' = selectedPeg s ∧
       (is_grid (board s) → s' = s)).
Proof.
  intros Hs. pose proof (round_trip_same s) as (Hb & Hsel & Hgrid). split.
  - destruct (restore_save date w s Hs) as (w' & Hrun & Ho & _ & Hs').
    exists w', (round_trip s). rewrite Ho. done.
  - intros r c s1 Hmove.
    destruct (undo_after_backup (selectCell r c) date w s _ _ Hs Hmove)
      as (w' & Hrun & Ho & Hm & Hs').
    exists w', (round_trip s). rewrite Ho. done.
Qed.

Lemma undo_round_trip_witness :
  let w := mkWorld [selected_state] (mkOriginator initialBoardLayout 0%nat)
                   [] true in
  let date := "2026-01-01 00:00:00" in
  let s := selected_state in
  (∃ w' s',
     (let* m := save date in restore m)%W w = (Normal (), w') ∧
     heap w' !! o_state (originator w') = Some s' ∧
     elems <$> board s' = elems <$> board s ∧
     selectedPeg s' = selectedPeg s ∧
     (is_grid (board s) → s' = s)) ∧
  (∀ r c s1,
     run (selectCell r c) s = (Normal MOVE_SUCCESS, s1) →
     ∃ w' s',
       (backup date ;; on_state (selectCell r c) ;; undo)%W w
       = (Normal (), w') ∧
       mementos w' = mementos w ∧
       heap w' !! o_state (originator w') = Some s' ∧
       elems <$> board s' = elems <$> board s ∧
       selectedPeg s' = selectedPeg s ∧
       (is_grid (board s) → s' = s)).
Proof.
  exact (undo_round_trip
           (mkWorld [selected_state] (mkOriginator initialBoardLayout 0%nat)
                    [] true)
           "2026-01-01 00:00:00" selected_state eq_refl).
Defined.

(** The move of the scenario, [(3, 1)] to [(3, 3)], is made and undone. *)
Example undo_first_move :
  run (selectCell 3 3) selected_state
  = (Normal MOVE_SUCCESS,
     (run (selectCell 3 3) selected_state).2) ∧
  heap (after initial_world
          [StartRestart; CellClick "t1" 3 1; CellClick "t2" 3 3; Undo])
  = [selected_state; selected_state].
Proof. split; reflexivity. Qed.

(** ** The history *)

Lemma history_kept_wret {A} (a : A) : history_kept (wret a).
Proof. done. Qed.

Lemma history_kept_wbind {A B} (m : W A) (f : A → W B) :
  history_kept m → (∀ a, history_kept (f a)) → history_kept (wbind m f).
Proof.
  intros Hm Hf w. unfold wbind. specialize (Hm w).
  destruct (m w) as [[a|] w1]; simpl in *; [|done].
  by rewrite Hf.
Qed.

Lemma history_kept_on_state {A} (p : Prog A) : history_kept (on_state p).
Proof.
  intros w. unfold on_state, on_object.
  destruct (heap w !! _); [|done]. by destruct (run p _).
Qed.

Lemma history_kept_restore m : history_kept (restore m).
Proof.
  intros w. unfold restore, wbind, deref.
  destruct (heap w !! getState m); [|done]. apply history_kept_on_state.
Qed.

Lemma history_kept_checkGameStatus : history_kept checkGameStatus.
Proof.
  apply history_kept_wbind; [apply history_kept_on_state|].
  intros status. by destruct (isGameOver status).
Qed.

Lemma history_kept_click_selectCell r c : history_kept (click_selectCell r c).
Proof.
  apply history_kept_wbind; [apply history_kept_on_state|].
  intros result. repeat case_bool_decide;
    first [apply history_kept_checkGameStatus | apply history_kept_wret].
Qed.

Lemma keeps_click_selectCell l r c : keeps l (click_selectCell r c).
Proof.
  apply keeps_wbind; [apply keeps_on_state|].
  intros result. repeat case_bool_decide;
    first [apply keeps_checkGameStatus | apply keeps_wret].
Qed.

(** A method that only reads leaves the world as it is. *)
Lemma on_state_unchanged {A} (p : Prog A) w s res :
  heap w !! o_state (originator w) = Some s →
  run p s = (res, s) →
  on_state p w = (res, w).
Proof.
  intros Hs Hrun. rewrite (on_state_spec _ _ _ Hs), Hrun. simpl.
  rewrite list_insert_id by done. by destruct w.
Qed.

(** The history after a click. *)
Lemma handleCellClick_history date r c w s :
  heap w !! o_state (originator w) = Some s →
  let w' := (handleCellClick date r c w).2 in
  if move_attempt w s r c
  then mementos w' = mementos w ++ [mkMemento (length (heap w)) date] ∧
       heap w' !! length (heap w) = Some (json_clone s)
  else mementos w' = mementos w.
Proof.
  intros Hs. pose proof (lookup_lt_Some _ _ _ Hs) as Hlt. cbv zeta.
  unfold move_attempt, handleCellClick.
  destruct (gameStarted w); [|reflexivity]. cbn [negb andb].
  fold (click_selectCell r c).
  unfold wbind at 1 4 7.
  destruct (board_row (board s) r) as [row|] eqn:Hrow.
  2:{ rewrite (on_state_unchanged _ _ s TypeError Hs)
        by (by rewrite run_read_cell, Hrow).
      unfold cell_at. by rewrite Hrow. }
  rewrite (on_state_unchanged _ _ s (Normal (arr_get row c)) Hs)
    by (by rewrite run_read_cell, Hrow).
  unfold wbind at 1 3 5.
  rewrite (on_state_unchanged _ _ s (Normal (selectedPeg s)) Hs) by done.
  replace (cell_at (board s) r c) with (arr_get row c)
    by (unfold cell_at; by rewrite Hrow).
  unfold wbind.
  destruct (is_empty (arr_get row c) && bool_decide (is_Some (selectedPeg s))).
  - rewrite (backup_spec _ _ _ Hs).
    set (w1 := set_mementos _ _).
    rewrite history_kept_click_selectCell. split; [done|].
    destruct (click_selectCell r c w1) as [res w2] eqn:Hclick.
    apply (keeps_click_selectCell (length (heap w))) in Hclick
      as (Hkept & _ & _); simpl.
    + etrans; [exact Hkept|]. simpl. rewrite lookup_app_r by lia.
      by rewrite Nat.sub_diag.
    + rewrite length_app. simpl. lia.
    + lia.
  - unfold wret. by rewrite history_kept_click_selectCell.
Qed.

Lemma restartGame_returns w s :
  heap w !! o_state (originator w) = Some s →
  ∃ w', restartGame w = (Normal (), w') ∧ mementos w' = mementos w.
Proof.
  intros Hs. unfold restartGame. rewrite (on_state_spec _ _ _ Hs).
  eexists. split; done.
Qed.

Lemma after_reach gs : after initial_world gs = reach (ReqGesture <$> gs).
Proof. unfold after, reach. by rewrite foldl_fmap. Qed.

(** C9, as stated, fails: [handleCellClick] takes the backup before it knows
    whether the move is legal.  After the first move of a game, the peg at
    [(0, 2)] is selected and the empty cell [(3, 1)] is clicked: [selectCell]
    answers [NO_ACTION] and the live state stays as it is, yet the history
    has grown from one entry to two. *)
Lemma backup_without_move :
  let w := after initial_world
             [StartRestart; CellClick "t1" 3 1; CellClick "t2" 3 3;
              CellClick "t3" 0 2] in
  let w' := (handle (CellClick "t4" 3 1) w).2 in
  ∃ s, heap w !! o_state (originator w) = Some s ∧
       (run (selectCell 3 1) s).1 = Normal NO_ACTION ∧
       heap w' !! o_state (originator w') = Some s ∧
       length (mementos w) = 1%nat ∧
       length (mementos w') = 2%nat.
Proof. eexists. repeat split; reflexivity. Qed.

(** C9, amended.  Over every sequence of gestures, the next gesture changes
    the history as follows.  Start/restart and stop empty it.  Undo removes
    its last entry, if it has one.  The tutorial button leaves it alone.  A
    click on a cell appends exactly one entry, a snapshot of the state
    before the click, when the game is on, the cell is empty and a peg is
    selected, that is before every attempt at a move, whether or not the
    move turns out legal; every move that a click makes is such an
    attempt; any other click leaves the history alone. *)
Theorem history_lifecycle gs g :
  let w := after initial_world gs in
  let w' := (handle g w).2 in
  ∃ s, heap w !! o_state (originator w) = Some s ∧
  match g with
  | StartRestart | Stop => mementos w' = []
  | Undo =>
      (mementos w = [] ∧ mementos w' = []) ∨
      (∃ m, mementos w = mementos w' ++ [m])
  | Tutorial => mementos w' = mementos w
  | CellClick date r c =>
      (if move_attempt w s r c
       then ∃ m, mementos w' = mementos w ++ [m] ∧
                 getDate m = date ∧
                 heap w' !! getState m = Some (json_clone s)
       else mementos w' = mementos w) ∧
      (gameStarted w = true →
       (run (selectCell r c) s).1 = Normal MOVE_SUCCESS →
       move_attempt w s r c = true)
  end.
Proof.
  intros w w'.
  assert (good_world initialBoardLayout w) as Hgood
    by (unfold w; rewrite after_reach; apply good_reach).
  destruct (good_world_state _ w Hgood) as (s & Hs & _).
  exists s. split; [done|]. subst w'.
  destruct g as [date r c| | | |]; cbn [handle].
  - split.
    + pose proof (handleCellClick_history date r c w s Hs) as Hh.
      cbv zeta in Hh. destruct (move_attempt w s r c); [|done].
      destruct Hh as [Hm Hheap]. by eexists.
    + intros Hstarted. unfold move_attempt. rewrite Hstarted.
      rewrite run_selectCell. unfold cell_at.
      destruct (board_row (board s) r) as [row|]; [|done]. simpl.
      destruct (is_peg (arr_get row c)); [done|].
      destruct (selectedPeg s) as [[fr fc]|]; [|done].
      destruct (is_empty (arr_get row c)); [|done]. done.
  - unfold handleStartRestart, startGame, wbind. simpl.
    destruct (restartGame_returns (set_gameStarted true w) s Hs)
      as (w1 & -> & _). done.
  - unfold handleUndo, undo.
    destruct (last (mementos w)) as [m|] eqn:Hlast.
    + right. apply last_Some in Hlast as [ms Hms].
      rewrite history_kept_restore. cbn [mementos set_mementos].
      rewrite Hms, removelast_last. by exists m.
    + left. by apply last_None in Hlast.
  - done.
  - unfold handleStop, resetUI, wbind. simpl.
    destruct (restartGame_returns (set_gameStarted false w) s Hs)
      as (w1 & -> & _). done.
Qed.


(** * Further properties of the script *)

(** ** [tryMove] on any state and any coordinates *)

Lemma store_cell_row_some s r c row v r' :
  board_row (board s) r = Some row →
  is_Some (board_row (board (store_cell s r c row v)) r') ↔
  is_Some (board_row (board s) r').
Proof.
  intros Hrow. unfold store_cell, board_row. cbn [board].
  destruct (r' <? 0); [done|].
  rewrite !lookup_lt_is_Some, length_insert. done.
Qed.

(** [tryMove], step by step, without any assumption. *)
Lemma run_tryMove_general s fr fc tr tc :
  let mr := fr + (tr - fr) / 2 in
  let mc := fc + (tc - fc) / 2 in
  run (tryMove fr fc tr tc) s =
  if decide (jump fr fc tr tc) then
    match board_row (board s) mr with
    | None => (TypeError, s)
    | Some rowm =>
        if is_peg (arr_get rowm mc) then
          match board_row (board s) fr with
          | None => (TypeError, s)
          | Some rowf =>
              let s1 := store_cell s fr fc rowf EMPTY in
              match board_row (board s1) mr with
              | None => (TypeError, s1)
              | Some rowm1 =>
                  let s2 := store_cell s1 mr mc rowm1 EMPTY in
                  match board_row (board s2) tr with
                  | None => (TypeError, s2)
                  | Some rowt => (Normal true, store_cell s2 tr tc rowt PEG)
                  end
              end
          end
        else (Normal false, s)
    end
  else (Normal false, s).
Proof.
  intros mr mc. unfold tryMove. case_decide as Hj.
  - pose proof Hj as Hj'. apply isValidDistance_jump in Hj' as ->.
    cbv zeta. fold mr mc. unfold negb at 1.
    rewrite run_bind, run_read_cell.
    destruct (board_row (board s) mr) as [rowm|]; [|done].
    destruct (is_peg (arr_get rowm mc)); [|done].
    unfold negb. rewrite run_bind, run_write_cell.
    destruct (board_row (board s) fr) as [rowf|]; [|done].
    rewrite run_bind, run_write_cell.
    destruct (board_row (board (store_cell s fr fc rowf EMPTY)) mr)
      as [rowm1|]; [|done].
    rewrite run_bind, run_write_cell.
    by destruct (board_row _ tr).
  - destruct (_ || _) eqn:Hd; [|done].
    by apply isValidDistance_jump in Hd.
Qed.

(** X1.  Whatever the state and the coordinates, on the board or not: when
    [tryMove] returns [false] the state is the one it started from; when it
    returns [true] the displacement was a jump over a cell that held a peg,
    and afterwards the origin and that cell read [EMPTY], the destination
    reads [PEG], every other cell reads as before and the selection is as
    before. *)
Theorem tryMove_outcomes s fr fc tr tc ok s' :
  run (tryMove fr fc tr tc) s = (Normal ok, s') →
  let mr := fr + (tr - fr) / 2 in
  let mc := fc + (tc - fc) / 2 in
  if ok then
    jump fr fc tr tc ∧ cell_at (board s) mr mc = Some PEG ∧
    selectedPeg s' = selectedPeg s ∧
    ∀ r c, cell_at (board s') r c =
           if decide (r = tr ∧ c = tc) then Some PEG
           else if decide (r = mr ∧ c = mc) then Some EMPTY
           else if decide (r = fr ∧ c = fc) then Some EMPTY
           else cell_at (board s) r c
  else s' = s.
Proof.
  intros Hrun mr mc. rewrite run_tryMove_general in Hrun. fold mr mc in Hrun.
  case_decide as Hj; [|by simplify_eq].
  destruct (board_row (board s) mr) as [rowm|] eqn:Hrm; [|done].
  unfold is_peg in Hrun. case_bool_decide as Hpeg; [|by simplify_eq].
  destruct (board_row (board s) fr) as [rowf|] eqn:Hrf; [|done].
  cbv zeta in Hrun.
  destruct (board_row (board (store_cell s fr fc rowf EMPTY)) mr)
    as [rowm1|] eqn:Hrm1; [|done].
  destruct (board_row _ tr) as [rowt|] eqn:Hrt; [|done].
  simplify_eq. split; [done|].
  split; [by unfold cell_at; rewrite Hrm|]. split; [done|].
  intros r c. rewrite !cell_at_store_cell by done.
  repeat case_decide; naive_solver.
Qed.

Lemma tryMove_outcomes_witness :
  let s := fresh_state initialBoardLayout in
  (run (tryMove 3 1 3 2) s).2 = s.
Proof.
  exact (tryMove_outcomes (fresh_state initialBoardLayout) 3 1 3 2 false _
           eq_refl).
Defined.

(** X2.  [tryMove] throws only on a jump, in one of three ways: the row of
    the midpoint is missing, or the midpoint holds a peg and the row of the
    origin is missing, and then the state is untouched; or the midpoint
    holds a peg, the row of the origin exists and the row of the
    destination is missing, and then the origin and the midpoint have
    already been set to [EMPTY], all other cells being as before. *)
Theorem tryMove_throws s fr fc tr tc s' :
  run (tryMove fr fc tr tc) s = (TypeError, s') →
  let mr := fr + (tr - fr) / 2 in
  let mc := fc + (tc - fc) / 2 in
  jump fr fc tr tc ∧
  ((board_row (board s) mr = None ∧ s' = s) ∨
   (cell_at (board s) mr mc = Some PEG ∧
    board_row (board s) fr = None ∧ s' = s) ∨
   (cell_at (board s) mr mc = Some PEG ∧
    is_Some (board_row (board s) fr) ∧
    board_row (board s) tr = None ∧
    selectedPeg s' = selectedPeg s ∧
    ∀ r c, cell_at (board s') r c =
           if decide (r = mr ∧ c = mc) then Some EMPTY
           else if decide (r = fr ∧ c = fc) then Some EMPTY
           else cell_at (board s) r c)).
Proof.
  intros Hrun mr mc. rewrite run_tryMove_general in Hrun. fold mr mc in Hrun.
  case_decide as Hj; [|done]. split; [done|].
  destruct (board_row (board s) mr) as [rowm|] eqn:Hrm;
    [|left; by simplify_eq].
  right. unfold is_peg in Hrun. case_bool_decide as Hpeg; [|done].
  assert (cell_at (board s) mr mc = Some PEG) as Hmid
    by (by unfold cell_at; rewrite Hrm).
  destruct (board_row (board s) fr) as [rowf|] eqn:Hrf;
    [|left; by simplify_eq].
  right. cbv zeta in Hrun.
  destruct (board_row (board (store_cell s fr fc rowf EMPTY)) mr)
    as [rowm1|] eqn:Hrm1.
  2:{ assert (is_Some (board_row (board (store_cell s fr fc rowf EMPTY)) mr))
        as [? Hx] by (apply store_cell_row_some; [done|by rewrite Hrm]).
      by rewrite Hx in Hrm1. }
  destruct (board_row _ tr) as [rowt|] eqn:Hrt; [done|].
  simplify_eq. split; [done|]. split; [done|]. split.
  - destruct (board_row (board s) tr) as [rowt|] eqn:Hrt0; [|done].
    assert (is_Some (board_row
              (board (store_cell (store_cell s fr fc rowf EMPTY)
                        mr mc rowm1 EMPTY)) tr)) as [? Hx].
    { apply store_cell_row_some; [done|].
      apply store_cell_row_some; [done|]. by rewrite Hrt0. }
    by rewrite Hx in Hrt.
  - split; [done|]. intros r c. rewrite !cell_at_store_cell by done.
    repeat case_decide; naive_solver.
Qed.

Lemma tryMove_throws_witness :
  let s := fresh_state initialBoardLayout in
  let s' := (run (tryMove 1 2 (-1) 2) s).2 in
  jump 1 2 (-1) 2 ∧
  ((board_row (board s) 0 = None ∧ s' = s) ∨
   (cell_at (board s) 0 2 = Some PEG ∧
    board_row (board s) 1 = None ∧ s' = s) ∨
   (cell_at (board s) 0 2 = Some PEG ∧
    is_Some (board_row (board s) 1) ∧
    board_row (board s) (-1) = None ∧
    selectedPeg s' = selectedPeg s ∧
    ∀ r c, cell_at (board s') r c =
           if decide (r = 0 ∧ c = 2) then Some EMPTY
           else if decide (r = 1 ∧ c = 2) then Some EMPTY
           else cell_at (board s) r c)).
Proof.
  exact (tryMove_throws (fresh_state initialBoardLayout) 1 2 (-1) 2 _ eq_refl).
Defined.

(** The direct call [tryMove(1, 2, -1, 2)] on the initial board throws
    half-way: two pegs are gone and none has landed. *)
Example tryMove_throws_half_way :
  let s := fresh_state initialBoardLayout in
  (run (tryMove 1 2 (-1) 2) s).1 = TypeError ∧
  countPegs (board (run (tryMove 1 2 (-1) 2) s).2) = 30%nat.
Proof. split; reflexivity. Qed.

Lemma tryMove_false_same s fr fc tr tc s' :
  run (tryMove fr fc tr tc) s = (Normal false, s') → s' = s.
Proof.
  rewrite run_tryMove_general. case_decide; [|by intros [= <-]].
  destruct (board_row (board s) _) as [rowm|]; [|done].
  destruct (is_peg _); [|by intros [= <-]].
  destruct (board_row (board s) fr) as [rowf|]; [|done]. cbv zeta.
  destruct (board_row _ _) as [rowm1|]; [|done].
  by destruct (board_row _ tr).
Qed.

(** A legal move, from a peg over a peg onto an empty cell, takes one peg
    off the board and leaves one at least. *)
Lemma tryMove_legal_count s fr fc tr tc s' :
  in_bounds (board s) fr fc → in_bounds (board s) tr tc →
  jump fr fc tr tc →
  cell_at (board s) fr fc = Some PEG →
  cell_at (board s) (fr + (tr - fr) / 2) (fc + (tc - fc) / 2) = Some PEG →
  cell_at (board s) tr tc = Some EMPTY →
  run (tryMove fr fc tr tc) s = (Normal true, s') →
  countPegs (board s) = S (countPegs (board s')) ∧
  (1 ≤ countPegs (board s'))%nat.
Proof.
  intros Hf Ht Hj Hfrom Hmid Hto Hrun.
  destruct (run_tryMove_legal s fr fc tr tc Hf Ht Hj Hmid)
    as (rowf & rowm & rowt & Hrf & Hrm & Hrt & _ & Hm1 & Ht2 & Hrun' & _).
  rewrite Hrun in Hrun'. simplify_eq.
  pose proof (jump_halves _ _ _ _ Hj) as (Hr & Hc & Hh). simpl in Hr, Hc, Hh.
  set (mr := fr + (tr - fr) / 2) in *. set (mc := fc + (tc - fc) / 2) in *.
  set (s1 := store_cell s fr fc rowf EMPTY) in *.
  set (s2 := store_cell s1 mr mc rowm EMPTY) in *.
  assert (cell_at (board s1) mr mc = Some PEG) as Hmid1.
  { unfold s1. rewrite cell_at_store_cell by done.
    rewrite decide_False by lia. done. }
  assert (cell_at (board s2) tr tc = Some EMPTY) as Hto2.
  { unfold s2. rewrite cell_at_store_cell by done.
    rewrite decide_False by lia.
    unfold s1. rewrite cell_at_store_cell by done.
    rewrite decide_False by lia. done. }
  pose proof (in_bounds_col _ _ _ _ Hf Hrf) as Hfc.
  pose proof (in_bounds_col _ _ _ _ Hm1 Hrm) as Hmc.
  pose proof (in_bounds_col _ _ _ _ Ht2 Hrt) as Htc.
  pose proof (countPegs_store_cell s fr fc rowf EMPTY Hrf Hfc) as H1.
  pose proof (countPegs_store_cell s1 mr mc rowm EMPTY Hrm Hmc) as H2.
  pose proof (countPegs_store_cell s2 tr tc rowt PEG Hrt Htc) as H3.
  rewrite (cell_at_weight _ _ _ _ Hfrom _ Hrf) in H1.
  rewrite (cell_at_weight _ _ _ _ Hmid1 _ Hrm) in H2.
  rewrite (cell_at_weight _ _ _ _ Hto2 _ Hrt) in H3.
  change (peg_weight (Some PEG)) with 1%nat in *.
  change (peg_weight (Some EMPTY)) with 0%nat in *.
  subst s2 s1. lia.
Qed.

(** ** [selectCell] on any state *)

(** X3.  Whatever the state, [selectCell(r, c)] answers [SELECT] exactly
    when the cell holds a peg, and then it leaves the board alone and
    toggles the selection: off when [(r, c)] was the selection, to [(r, c)]
    otherwise.  Two such calls in a row therefore end with [(r, c)]
    selected when it was selected before, and with no selection
    otherwise. *)
Theorem selectCell_select s r c :
  (∀ s', run (selectCell r c) s = (Normal SELECT, s') ↔
         cell_at (board s) r c = Some PEG ∧
         s' = mkState (board s)
                (if bool_decide (selectedPeg s = Some (r, c))
                 then None else Some (r, c))) ∧
  (cell_at (board s) r c = Some PEG →
   run (selectCell r c ;; selectCell r c)%js s
   = (Normal SELECT,
      mkState (board s)
        (if bool_decide (selectedPeg s = Some (r, c))
         then Some (r, c) else None))).
Proof.
  assert (∀ s0 s', run (selectCell r c) s0 = (Normal SELECT, s') ↔
            cell_at (board s0) r c = Some PEG ∧
            s' = mkState (board s0)
                   (if bool_decide (selectedPeg s0 = Some (r, c))
                    then None else Some (r, c))) as Hsel.
  { intros s0 s'. rewrite run_selectCell. unfold cell_at.
    destruct (board_row (board s0) r) as [row|]; simpl; [|naive_solver].
    unfold is_peg. case_bool_decide as Hpeg; [naive_solver|].
    split; [|naive_solver].
    destruct (selectedPeg s0) as [[sr sc]|]; [|done].
    destruct (is_empty _); [|done].
    by destruct (run (tryMove sr sc r c) s0) as [[[|]|] ?]. }
  split; [apply Hsel|].
  intros Hpeg. rewrite run_bind.
  destruct (run (selectCell r c) s) as [res s1] eqn:Hrun1.
  assert (run (selectCell r c) s
          = (Normal SELECT,
             mkState (board s)
               (if bool_decide (selectedPeg s = Some (r, c))
                then None else Some (r, c)))) as Hfirst
    by (by apply Hsel).
  rewrite Hrun1 in Hfirst. simplify_eq.
  apply Hsel. cbn [board selectedPeg]. split; [done|].
  f_equal. by repeat case_bool_decide.
Qed.

(** X4.  Whatever the state, when [selectCell] answers [NO_ACTION] the
    state is the one it started from, and the cell does not hold a peg. *)
Theorem selectCell_no_action s r c s' :
  run (selectCell r c) s = (Normal NO_ACTION, s') →
  s' = s ∧ cell_at (board s) r c ≠ Some PEG.
Proof.
  rewrite run_selectCell. unfold cell_at.
  destruct (board_row (board s) r) as [row|]; [|done]. simpl.
  unfold is_peg. case_bool_decide as Hpeg; [done|].
  destruct (selectedPeg s) as [[sr sc]|]; [|by intros [= <-]].
  destruct (is_empty _); [|by intros [= <-]].
  destruct (run (tryMove sr sc r c) s) as [[[|]|] s1] eqn:Hrun; [done| |done].
  intros [= <-]. by apply tryMove_false_same in Hrun.
Qed.

Lemma selectCell_no_action_witness :
  let s := fresh_state initialBoardLayout in
  (run (selectCell 3 3) s).2 = s ∧ cell_at (board s) 3 3 ≠ Some PEG.
Proof.
  exact (selectCell_no_action (fresh_state initialBoardLayout) 3 3 _ eq_refl).
Defined.

Lemma selected_state_good : good_state initialBoardLayout selected_state.
Proof.
  apply (selectCell_good initialBoardLayout (fresh_state initialBoardLayout)
           3 1 (Normal SELECT)); [|done].
  apply good_fresh_state, initialBoardLayout_no_stray.
Qed.

(** X5.  For any state in which the selection, if there is one, is on a
    peg and no row has a cell under a negative key, however that state was
    reached: a call of [selectCell] that answers [MOVE_SUCCESS] has cleared
    the selection and taken exactly one peg off the board: the selected
    cell and the cell between it and [(r, c)] held pegs and are empty now,
    [(r, c)] was empty and holds a peg now, every other cell and the shape
    of the board are as before. *)
Theorem selectCell_move_effect s r c s' :
  no_stray (board s) → selection_on_peg s →
  run (selectCell r c) s = (Normal MOVE_SUCCESS, s') →
  selectedPeg s' = None ∧
  countPegs (board s) = S (countPegs (board s')) ∧
  arr_length <$> board s' = arr_length <$> board s ∧
  ∃ fr fc,
    selectedPeg s = Some (fr, fc) ∧ jump fr fc r c ∧
    let mr := fr + (r - fr) / 2 in
    let mc := fc + (c - fc) / 2 in
    cell_at (board s) fr fc = Some PEG ∧
    cell_at (board s) mr mc = Some PEG ∧
    cell_at (board s) r c = Some EMPTY ∧
    ∀ r' c', cell_at (board s') r' c' =
             if decide (r' = r ∧ c' = c) then Some PEG
             else if decide (r' = mr ∧ c' = mc) then Some EMPTY
             else if decide (r' = fr ∧ c' = fc) then Some EMPTY
             else cell_at (board s) r' c'.
Proof.
  intros Hns Hsel Hrun.
  assert (good_state (board s) s) as Hgood by (split; [done|done|by intros ??]).
  destruct (selectCell_move _ s r c s' Hgood Hrun)
    as (fr & fc & s1 & Hs & Hf & Ht & Hj & Hfrom & Hmid & Hto & Hrun1 & ->).
  destruct (tryMove_legal_count s fr fc r c s1 Hf Ht Hj Hfrom Hmid Hto Hrun1)
    as [Hcount _].
  destruct (tryMove_legal_cells s fr fc r c Hf Ht Hj Hmid)
    as (s1' & Hrun1' & _ & Hshape & Hcells).
  rewrite Hrun1 in Hrun1'. simplify_eq.
  cbn [board selectedPeg]. split; [done|]. split; [done|]. split; [done|].
  exists fr, fc. done.
Qed.

Lemma selectCell_move_effect_witness :
  let s := selected_state in
  let s' := (run (selectCell 3 3) s).2 in
  selectedPeg s' = None ∧
  countPegs (board s) = S (countPegs (board s')) ∧
  arr_length <$> board s' = arr_length <$> board s ∧
  ∃ fr fc,
    selectedPeg s = Some (fr, fc) ∧ jump fr fc 3 3 ∧
    let mr := fr + (3 - fr) / 2 in
    let mc := fc + (3 - fc) / 2 in
    cell_at (board s) fr fc = Some PEG ∧
    cell_at (board s) mr mc = Some PEG ∧
    cell_at (board s) 3 3 = Some EMPTY ∧
    ∀ r' c', cell_at (board s') r' c' =
             if decide (r' = 3 ∧ c' = 3) then Some PEG
             else if decide (r' = mr ∧ c' = mc) then Some EMPTY
             else if decide (r' = fr ∧ c' = fc) then Some EMPTY
             else cell_at (board s) r' c'.
Proof.
  exact (selectCell_move_effect selected_state 3 3 _
           (good_stray _ _ selected_state_good)
           (good_selection _ _ selected_state_good) eq_refl).
Defined.

(** ** The board and the history of the running script *)

Lemma is_grid_store_cell s r c row v :
  board_row (board s) r = Some row →
  0 ≤ c < Z.of_nat (arr_length row) →
  is_grid (board s) → is_grid (board (store_cell s r c row v)).
Proof.
  intros Hrow Hc Hgrid. apply board_row_Some in Hrow as [Hr Hl].
  unfold store_cell. cbn [board]. apply Forall_insert; [done|].
  eapply Forall_lookup_1 in Hgrid as [Hp He]; [|done].
  rewrite arr_set_in by done. cbn [props elems]. split; [done|].
  by apply Forall_insert.
Qed.

Lemma is_grid_copy (b : list JsArray) : is_grid b → is_grid (arr_copy <$> b).
Proof. intros Hgrid. by rewrite (arr_copy_grid b). Qed.

Lemma shape_copy (b : list JsArray) :
  arr_length <$> (arr_copy <$> b) = arr_length <$> b.
Proof. by rewrite <- list_fmap_compose. Qed.

Lemma countPegs_copy (b : list JsArray) : countPegs (arr_copy <$> b) = countPegs b.
Proof. unfold countPegs. by rewrite (elems_copy b). Qed.

(** In a good state [selectCell] either makes a move or leaves the board
    alone, and it throws only when the row is missing. *)
Lemma selectCell_good_cases layout s r c res s' :
  good_state layout s →
  run (selectCell r c) s = (res, s') →
  res = Normal MOVE_SUCCESS ∨
  (board s' = board s ∧
   (res = TypeError → board_row (board s) r = None ∧ s' = s)).
Proof.
  intros [Hns Hsel _]. rewrite run_selectCell.
  destruct (board_row (board s) r) as [row|] eqn:Hrow;
    [|intros [= <- <-]; by right].
  cbv zeta. destruct (is_peg (arr_get row c)); [intros [= <- <-]; by right|].
  destruct (selectedPeg s) as [[fr fc]|] eqn:Hs; [|intros [= <- <-]; by right].
  unfold is_empty. case_bool_decide as Hempty; [|intros [= <- <-]; by right].
  assert (cell_at (board s) r c = Some EMPTY) as Hto
    by (unfold cell_at; by rewrite Hrow).
  pose proof (Hsel _ _ Hs) as Hfrom.
  pose proof (no_stray_in_bounds _ _ _ _ Hns Hfrom) as Hf.
  pose proof (no_stray_in_bounds _ _ _ _ Hns Hto) as Ht.
  destruct (tryMove_cases s fr fc r c Hf Ht)
    as (ok & s1 & Hrun & _ & _ & Hfail).
  rewrite Hrun. destruct ok; intros [= <- <-]; [by left|].
  right. by rewrite Hfail.
Qed.

Section SoundInvariant.
Variable layout : list JsArray.
Hypothesis layout_grid : is_grid layout.
Hypothesis layout_pegs : (1 ≤ countPegs layout)%nat.

Lemma sound_fresh_state : sound_state layout (fresh_state layout).
Proof.
  split; unfold fresh_state; cbn [board].
  - by apply good_fresh_state, is_grid_no_stray.
  - by apply is_grid_copy.
  - apply shape_copy.
  - rewrite countPegs_copy. lia.
Qed.

Lemma sound_copy s :
  sound_state layout s →
  sound_state layout (mkState (arr_copy <$> board s) (selectedPeg s)).
Proof.
  intros [Hgood Hgrid Hshape Hpegs]. split; cbn [board].
  - by apply good_copy.
  - by apply is_grid_copy.
  - by rewrite shape_copy.
  - by rewrite countPegs_copy.
Qed.

Lemma selectCell_sound s r c res s' :
  sound_state layout s → run (selectCell r c) s = (res, s') →
  sound_state layout s'.
Proof.
  intros [Hgood Hgrid Hshape Hpegs] Hrun.
  pose proof (selectCell_good _ _ _ _ _ _ Hgood Hrun) as Hgood'.
  destruct (selectCell_good_cases _ _ _ _ _ _ Hgood Hrun)
    as [-> | [Hboard _]].
  - destruct (selectCell_move _ s r c s' Hgood Hrun)
      as (fr & fc & s1 & Hsel & Hf & Ht & Hj & Hfrom & Hmid & Hto & Hrun1 & ->).
    destruct (tryMove_legal_count s fr fc r c s1 Hf Ht Hj Hfrom Hmid Hto Hrun1)
      as [Hcount Hone].
    destruct (run_tryMove_legal s fr fc r c Hf Ht Hj Hmid)
      as (rowf & rowm & rowt & Hrf & Hrm & Hrt & _ & Hm1 & Ht2 & Hrun1' & _).
    rewrite Hrun1 in Hrun1'. simplify_eq.
    pose proof (in_bounds_col _ _ _ _ Hf Hrf) as Hfc.
    pose proof (in_bounds_col _ _ _ _ Hm1 Hrm) as Hmc.
    pose proof (in_bounds_col _ _ _ _ Ht2 Hrt) as Htc.
    split; cbn [board] in *; [done| | |lia].
    + by repeat apply is_grid_store_cell.
    + rewrite !shape_store_cell; done.
  - split; [done|by rewrite Hboard..].
Qed.

Lemma upholds_wret {A} (a : A) : upholds layout (wret a).
Proof. by intros w res w' Hw [= _ <-]. Qed.

Lemma upholds_wbind {A B} (m : W A) (f : A → W B) :
  upholds layout m → (∀ a, upholds layout (f a)) → upholds layout (wbind m f).
Proof.
  intros Hm Hf w res w' Hw. unfold wbind.
  destruct (m w) as [[a|] w1] eqn:Hmw.
  - intros Hfw. eapply Hf; [|done]. by eapply Hm.
  - intros [= _ <-]. by eapply Hm.
Qed.

Lemma upholds_update (f : World → World) :
  (∀ w, sound_world layout w → sound_world layout (f w)) →
  upholds layout (λ w, (Normal (), f w)).
Proof. intros Hf w res w' Hw [= _ <-]. by apply Hf. Qed.

Lemma sound_set_gameStarted g w :
  sound_world layout w → sound_world layout (set_gameStarted g w).
Proof. by intros []. Qed.

Lemma sound_clear_mementos w :
  sound_world layout w → sound_world layout (set_mementos [] w).
Proof. intros [? ? ? _]. by split. Qed.

Lemma sound_drop_memento w :
  sound_world layout w →
  sound_world layout (set_mementos (removelast (mementos w)) w).
Proof.
  intros [? ? ? Hms]. split; [done..|]. cbn [mementos set_mementos].
  destruct (mementos w) as [|m0 ms _] using rev_ind; [done|].
  rewrite removelast_last. by apply Forall_app in Hms as [Hms _].
Qed.

Lemma sound_set_heap_insert s w :
  sound_world layout w → sound_state layout s →
  sound_world layout
    (set_heap (<[o_state (originator w) := s]> (heap w)) w).
Proof.
  intros [Hl Hst Hh Hms] Hs. split; simpl; [done| | |].
  - by rewrite length_insert.
  - by apply Forall_insert.
  - eapply Forall_impl; [done|]. intros m [??]. split; [|done].
    simpl. by rewrite length_insert.
Qed.

Lemma upholds_on_state {A} (p : Prog A) :
  (∀ s res s', sound_state layout s → run p s = (res, s') →
               sound_state layout s') →
  upholds layout (on_state p).
Proof.
  intros Hp w res w' Hw. unfold on_state, on_object.
  destruct (heap w !! o_state (originator w)) as [s|] eqn:Hs;
    [|by intros [= _ <-]].
  destruct (run p s) as [res1 s1] eqn:Hrun. intros [= _ <-].
  apply sound_set_heap_insert; [done|].
  eapply Hp; [|done]. destruct Hw as [_ _ Hh _].
  by eapply Forall_lookup_1 in Hh.
Qed.

Lemma upholds_unchanged {A} (p : Prog A) :
  (∀ s res s', run p s = (res, s') → s' = s) → upholds layout (on_state p).
Proof.
  intros Hp. apply upholds_on_state. intros s res s' Hs Hrun.
  by rewrite (Hp _ _ _ Hrun).
Qed.

Lemma upholds_restartGame : upholds layout restartGame.
Proof.
  intros w res w' Hw. unfold restartGame. apply upholds_on_state; [|done].
  intros s res1 s1 _ [= _ <-]. destruct Hw as [-> _ _ _].
  apply sound_fresh_state.
Qed.

Lemma upholds_save date : upholds layout (save date).
Proof.
  intros w res w' Hw. unfold save, new_ConcreteMemento.
  destruct (heap w !! o_state (originator w)) as [s|] eqn:Hs;
    [|by intros [= _ <-]].
  intros [= _ <-]. destruct Hw as [Hl Hst Hh Hms]. split; simpl; [done| | |].
  - rewrite length_app. lia.
  - apply Forall_app. split; [done|]. apply Forall_singleton.
    apply sound_copy. by eapply Forall_lookup_1 in Hh.
  - eapply Forall_impl; [done|]. intros m [??]. split; [|done].
    simpl. rewrite length_app. lia.
Qed.

Lemma upholds_restore m : upholds layout (restore m).
Proof.
  intros w res w' Hw. unfold restore, wbind, deref.
  destruct (heap w !! getState m) as [saved|] eqn:Hsaved;
    [|by intros [= _ <-]].
  apply upholds_on_state; [|done].
  intros s res1 s1 _ [= _ <-].
  apply sound_copy. destruct Hw as [_ _ Hh _].
  by eapply Forall_lookup_1 in Hh.
Qed.

Lemma upholds_backup date : upholds layout (backup date).
Proof.
  intros w res w' Hw. unfold backup, wbind, save, new_ConcreteMemento.
  destruct (heap w !! o_state (originator w)) as [s|] eqn:Hs;
    [|by intros [= _ <-]].
  intros [= _ <-]. destruct Hw as [Hl Hst Hh Hms]. split; simpl; [done| | |].
  - rewrite length_app. lia.
  - apply Forall_app. split; [done|]. apply Forall_singleton.
    apply sound_copy. by eapply Forall_lookup_1 in Hh.
  - apply Forall_app. split.
    + eapply Forall_impl; [done|]. intros m [??]. split; [|done].
      simpl. rewrite length_app. lia.
    + apply Forall_singleton. split; simpl; [rewrite length_app; simpl|]; lia.
Qed.

Lemma upholds_undo : upholds layout undo.
Proof.
  intros w res w' Hw. unfold undo.
  destruct (last (mementos w)) as [m|]; [|by intros [= _ <-]].
  apply upholds_restore. by apply sound_drop_memento.
Qed.

Lemma upholds_checkGameState : upholds layout (on_state checkGameState).
Proof.
  apply upholds_unchanged. intros s res s'.
  rewrite run_checkGameState_fold. by intros [= _ <-].
Qed.

Lemma upholds_checkGameStatus : upholds layout checkGameStatus.
Proof.
  apply upholds_wbind; [apply upholds_checkGameState|].
  intros status. destruct (isGameOver status); [|apply upholds_wret].
  apply upholds_update. intros w. apply sound_set_gameStarted.
Qed.

Lemma upholds_selectCell r c : upholds layout (on_state (selectCell r c)).
Proof.
  apply upholds_on_state. intros s res s'. apply selectCell_sound.
Qed.

Lemma upholds_handleCellClick date r c :
  upholds layout (handleCellClick date r c).
Proof.
  intros w res w'. unfold handleCellClick.
  destruct (negb (gameStarted w)); [by intros ? [= _ <-]|].
  revert w res w'.
  apply upholds_wbind.
  { apply upholds_unchanged. intros s res s'. rewrite run_read_cell.
    destruct (board_row _ _); by intros [= _ <-]. }
  intros cell. apply upholds_wbind.
  { apply upholds_unchanged. by intros s res s' [= _ <-]. }
  intros sel. apply upholds_wbind.
  { destruct (_ && _); [apply upholds_backup | apply upholds_wret]. }
  intros _.
  apply upholds_wbind; [apply upholds_selectCell|]. intros result.
  repeat case_bool_decide;
    first [apply upholds_checkGameStatus | apply upholds_wret].
Qed.

Lemma upholds_startGame : upholds layout startGame.
Proof.
  apply upholds_wbind.
  { apply upholds_update. intros w. apply sound_set_gameStarted. }
  intros _. apply upholds_wbind; [apply upholds_restartGame|].
  intros _. apply upholds_update. intros w. apply sound_clear_mementos.
Qed.

Lemma upholds_resetUI : upholds layout resetUI.
Proof.
  apply upholds_wbind.
  { apply upholds_update. intros w. apply sound_set_gameStarted. }
  intros _. apply upholds_wbind; [apply upholds_restartGame|].
  intros _. apply upholds_update. intros w. apply sound_clear_mementos.
Qed.

Lemma upholds_handle g : upholds layout (handle g).
Proof.
  destruct g; simpl.
  - apply upholds_handleCellClick.
  - apply upholds_startGame.
  - apply upholds_undo.
  - apply upholds_wret.
  - apply upholds_resetUI.
Qed.

Lemma sound_serve q w : sound_world layout w → sound_world layout (serve q w).
Proof.
  intros Hw. destruct q; simpl.
  - eapply upholds_selectCell; [done|apply surjective_pairing].
  - eapply upholds_checkGameState; [done|apply surjective_pairing].
  - eapply upholds_restartGame; [done|apply surjective_pairing].
  - eapply upholds_save; [done|apply surjective_pairing].
  - eapply upholds_restore; [done|apply surjective_pairing].
  - eapply upholds_backup; [done|apply surjective_pairing].
  - eapply upholds_undo; [done|apply surjective_pairing].
  - eapply upholds_handle; [done|apply surjective_pairing].
Qed.
End SoundInvariant.

Lemma initialBoardLayout_pegs : countPegs initialBoardLayout = 32%nat.
Proof. reflexivity. Qed.

Lemma sound_initial_world : sound_world initialBoardLayout initial_world.
Proof.
  split; simpl; [done|lia| |done]. apply Forall_singleton.
  apply sound_fresh_state; [apply initialBoardLayout_grid|].
  rewrite initialBoardLayout_pegs. lia.
Qed.

(** Every world the script can be brought to is sound. *)
Lemma sound_reach qs : sound_world initialBoardLayout (reach qs).
Proof.
  unfold reach. induction qs as [|q qs IH] using rev_ind.
  - apply sound_initial_world.
  - rewrite foldl_app. simpl.
    apply sound_serve; [apply initialBoardLayout_grid| |done].
    rewrite initialBoardLayout_pegs. lia.
Qed.

Lemma sound_world_state layout w :
  sound_world layout w →
  ∃ s, heap w !! o_state (originator w) = Some s ∧ sound_state layout s.
Proof.
  intros [_ Hst Hh _].
  destruct (lookup_lt_is_Some_2 _ _ Hst) as [s Hs].
  exists s. split; [done|]. by eapply Forall_lookup_1 in Hh.
Qed.

(** X6.  In every world reached from the script as loaded by requests
    (calls of [selectCell] at any coordinates, [checkGameState],
    [restartGame], [save], [restore], [backup] and [undo], and gestures on
    the page; [tryMove] only as [selectCell] calls it, not called directly),
    the board of the originator is a grid of cells of seven rows of seven:
    none of these requests adds, removes or lengthens a row or leaves a
    slot without a cell. *)
Theorem board_shape_invariant qs :
  let w := reach qs in
  ∃ s, heap w !! o_state (originator w) = Some s ∧
       is_grid (board s) ∧
       arr_length <$> board s = replicate 7 7%nat.
Proof.
  intros w.
  destruct (sound_world_state _ w (sound_reach qs)) as (s & Hs & Hsound).
  exists s. split; [done|]. destruct Hsound as [_ Hgrid Hshape _].
  split; [done|]. by rewrite Hshape.
Qed.

(** X7.  In every world reached from the script as loaded, the board of
    the originator holds at least one peg and at most the 32 pegs of the
    initial layout. *)
Theorem peg_count_bounds qs :
  let w := reach qs in
  ∃ s, heap w !! o_state (originator w) = Some s ∧
       (1 ≤ countPegs (board s) ≤ 32)%nat.
Proof.
  intros w.
  destruct (sound_world_state _ w (sound_reach qs)) as (s & Hs & Hsound).
  exists s. split; [done|]. destruct Hsound as [_ _ _ Hpegs].
  by rewrite initialBoardLayout_pegs in Hpegs.
Qed.

(** ** The game-over check and the move rule *)

(** The whole-board result of [checkGameState]. *)
Lemma run_checkGameState_status s :
  run checkGameState s
  = (Normal (mkStatus (game_over (board s))
                      (countPegs (board s) =? 1)%nat
                      (countPegs (board s))), s).
Proof.
  rewrite run_checkGameState_fold.
  rewrite foldl_row_step. cbn [fst snd]. rewrite !Nat.add_0_l.
  change (seq 0 (length (board s)) ≫= _) with (positions (board s)).
  change (positions (board s) ≫= _) with (candidates (board s)).
  rewrite count_positions. reflexivity.
Qed.

Lemma available_move_exists s :
  availableMoves (board s) ≠ 0%nat ↔ move_exists s.
Proof.
  unfold availableMoves, move_exists. split.
  - intros Hne.
    destruct (filter _ (candidates (board s))) as [|[[r c] [dx dy]] l] eqn:Hl;
      [done|].
    assert ((r, c, (dx, dy)) ∈ filter (λ m, available (board s) m)
                                      (candidates (board s))) as Hin
      by (rewrite Hl; left).
    apply list_elem_of_filter in Hin as [Hav Hin].
    apply elem_of_candidates in Hin as [Hp Hd].
    apply elem_of_positions in Hp.
    apply (elem_of_DIRECTIONS r c) in Hd.
    unfold available, can_jump, is_peg, is_empty in Hav. simpl in Hav.
    apply andb_True in Hav as [Hpeg Hav]. apply andb_True in Hav as [Hland Hmid].
    apply bool_decide_unpack in Hpeg, Hland, Hmid.
    assert (∃ s', run (tryMove r c (r + dx) (c + dy)) s = (Normal true, s'))
      as [s' Hrun].
    { rewrite run_tryMove_general. rewrite decide_True by done.
      replace (r + dx - r) with dx by lia.
      replace (c + dy - c) with dy by lia.
      unfold cell_at in Hmid, Hland.
      destruct (board_row (board s) (r + dx / 2)) as [rowm|] eqn:Hrm; [|done].
      simpl in Hmid. unfold is_peg. rewrite Hmid.
      rewrite bool_decide_eq_true_2 by done.
      apply in_bounds_spec in Hp as (rowf & Hrf & _). rewrite Hrf. cbv zeta.
      destruct (board_row (board (store_cell s r c rowf EMPTY)) (r + dx / 2))
        as [rowm1|] eqn:Hrm1.
      2:{ assert (is_Some (board_row (board (store_cell s r c rowf EMPTY))
                             (r + dx / 2))) as [? Hx]
            by (apply store_cell_row_some; [done|by rewrite Hrm]).
          by rewrite Hx in Hrm1. }
      destruct (board_row (board s) (r + dx)) as [rowt|] eqn:Hrt;
        [|by simpl in Hland].
      destruct (board_row (board (store_cell _ _ _ _ _)) (r + dx))
        as [rowt2|] eqn:Hrt2; [eexists; reflexivity|].
      assert (is_Some (board_row
                (board (store_cell (store_cell s r c rowf EMPTY)
                          (r + dx / 2) (c + dy / 2) rowm1 EMPTY)) (r + dx)))
        as [? Hx].
      { apply store_cell_row_some; [done|].
        apply store_cell_row_some; [done|]. by rewrite Hrt. }
      by rewrite Hx in Hrt2. }
    exists r, c, (r + dx), (c + dy), s'. done.
  - intros (fr & fc & tr & tc & s' & Hf & Hfrom & Hto & Hrun).
    rewrite run_tryMove_general in Hrun.
    case_decide as Hj; [|done].
    destruct (board_row (board s) (fr + (tr - fr) / 2)) as [rowm|] eqn:Hrm;
      [|done].
    unfold is_peg in Hrun. case_bool_decide as Hmid; [|done]. clear Hrun.
    assert ((fr, fc, (tr - fr, tc - fc))
            ∈ filter (λ m, available (board s) m) (candidates (board s)))
      as Hin.
    { apply list_elem_of_filter. split.
      - unfold available, can_jump, is_peg, is_empty. simpl.
        replace (fr + (tr - fr)) with tr by lia.
        replace (fc + (tc - fc)) with tc by lia.
        rewrite Hfrom, Hto. unfold cell_at. rewrite Hrm. simpl. rewrite Hmid.
        by rewrite !bool_decide_eq_true_2.
      - apply elem_of_candidates. split; [by apply elem_of_positions|].
        apply (elem_of_DIRECTIONS fr fc).
        replace (fr + (tr - fr)) with tr by lia.
        by replace (fc + (tc - fc)) with tc by lia. }
    intros Hlen. apply length_zero_iff_nil in Hlen. rewrite Hlen in Hin.
    by apply elem_of_nil in Hin.
Qed.

(** X8.  [checkGameState] and [tryMove] agree on what a move is: whatever
    the state, [checkGameState] reports [isGameOver] exactly when one peg
    is left or there is no pair of cells, a peg on the board and an empty
    cell, between which [tryMove] would accept a move. *)
Theorem game_over_iff_no_move s :
  ∃ status,
    run checkGameState s = (Normal status, s) ∧
    (isGameOver status = true ↔
     countPegs (board s) = 1%nat ∨ ¬ move_exists s).
Proof.
  eexists. split; [apply run_checkGameState_status|].
  cbn [isGameOver]. unfold game_over.
  rewrite orb_true_iff, !Nat.eqb_eq, <- available_move_exists.
  split; (intros [?|?]; [by left|right]); [by intros ?|].
  by destruct (decide (availableMoves (board s) = 0%nat)).
Qed.

(** ** Clicks *)

Lemma selectCell_returns layout s r c :
  good_state layout s → is_Some (board_row (board s) r) →
  ∃ a s', run (selectCell r c) s = (Normal a, s').
Proof.
  intros Hgood [row Hrow].
  destruct (run (selectCell r c) s) as [[a|] s'] eqn:Hrun; [by eexists _, _|].
  destruct (selectCell_good_cases _ _ _ _ _ _ Hgood Hrun) as [? | [_ Hthrow]];
    [done|].
  destruct (Hthrow eq_refl) as [Hnone _]. by rewrite Hrow in Hnone.
Qed.

(** [handleCellClick] while a game is on: the backup, if any, and then
    [selectCell] with what follows it. *)
Lemma handleCellClick_started date r c w s :
  heap w !! o_state (originator w) = Some s →
  gameStarted w = true →
  handleCellClick date r c w =
  match board_row (board s) r with
  | Some _ =>
      click_selectCell r c
        (if move_attempt w s r c then after_backup date s w else w)
  | None => (TypeError, w)
  end.
Proof.
  intros Hs Hstarted. unfold move_attempt, handleCellClick.
  rewrite Hstarted. cbn [negb andb]. fold (click_selectCell r c).
  unfold wbind at 1.
  destruct (board_row (board s) r) as [row|] eqn:Hrow.
  2:{ by rewrite (on_state_unchanged _ _ s TypeError Hs)
        by (by rewrite run_read_cell, Hrow). }
  rewrite (on_state_unchanged _ _ s (Normal (arr_get row c)) Hs)
    by (by rewrite run_read_cell, Hrow).
  unfold wbind at 1.
  rewrite (on_state_unchanged _ _ s (Normal (selectedPeg s)) Hs) by done.
  replace (cell_at (board s) r c) with (arr_get row c)
    by (unfold cell_at; by rewrite Hrow).
  unfold wbind at 1.
  destruct (is_empty (arr_get row c) && bool_decide (is_Some (selectedPeg s))).
  - by rewrite (backup_spec _ _ _ Hs).
  - done.
Qed.

(** [selectCell] and what [handleCellClick] does with its answer. *)
Lemma click_selectCell_spec r c w s :
  heap w !! o_state (originator w) = Some s →
  click_selectCell r c w =
  let w' := set_heap (<[o_state (originator w) := (run (selectCell r c) s).2]>
                        (heap w)) w in
  match (run (selectCell r c) s).1 with
  | Normal MOVE_SUCCESS =>
      (Normal (),
       if game_over (board (run (selectCell r c) s).2)
       then set_gameStarted false w' else w')
  | Normal _ => (Normal (), w')
  | TypeError => (TypeError, w')
  end.
Proof.
  intros Hs. pose proof (lookup_lt_Some _ _ _ Hs) as Hlt.
  unfold click_selectCell, wbind. rewrite (on_state_spec _ _ _ Hs).
  destruct (run (selectCell r c) s) as [[[| |]|] s1]; cbn [fst snd]; try done.
  cbv zeta. set (w' := set_heap _ w).
  rewrite bool_decide_eq_true_2 by done.
  rewrite bool_decide_eq_true_2 by done.
  unfold checkGameStatus, wbind.
  rewrite (on_state_unchanged _ w' s1 _ ltac:(
    unfold w'; simpl; by rewrite list_lookup_insert_eq)
    (run_checkGameState_status s1)).
  cbn [isGameOver]. by destruct (game_over (board s1)).
Qed.

(** X9.  In every world reached by gestures on the page, the handler of the
    next gesture returns and does not throw, for a click on any column of a
    row of the board as for the buttons: [selectCell], [checkGameState],
    [backup], [undo] and [restartGame] meet no missing row and no dangling
    memento. *)
Theorem handlers_return gs g :
  on_rows g → (handle g (after initial_world gs)).1 = Normal ().
Proof.
  intros Hrows. set (w := after initial_world gs).
  assert (sound_world initialBoardLayout w) as Hsound
    by (unfold w; rewrite after_reach; apply sound_reach).
  destruct (sound_world_state _ w Hsound) as (s & Hs & Hst).
  pose proof (lookup_lt_Some _ _ _ Hs) as Hlt.
  destruct g as [date r c| | | |]; cbn [handle].
  - destruct (gameStarted w) eqn:Hstarted.
    2:{ unfold handleCellClick. by rewrite Hstarted. }
    rewrite (handleCellClick_started _ _ _ _ _ Hs Hstarted).
    assert (is_Some (board_row (board s) r)) as Hrow.
    { apply board_row_lt. destruct Hst as [_ _ Hshape _].
      apply (f_equal length) in Hshape. rewrite !length_fmap in Hshape.
      rewrite Hshape. simpl in *. lia. }
    destruct Hrow as [row Hrow]. rewrite Hrow.
    destruct (selectCell_returns _ s r c (sound_good _ _ Hst)
                ltac:(by rewrite Hrow)) as (a & s1 & Hrun).
    set (w1 := if move_attempt w s r c then after_backup date s w else w).
    assert (heap w1 !! o_state (originator w1) = Some s) as Hs1.
    { unfold w1. destruct (move_attempt w s r c); [|done].
      simpl. by rewrite lookup_app_l. }
    rewrite (click_selectCell_spec _ _ _ _ Hs1), Hrun. cbn [fst snd].
    by destruct a.
  - unfold handleStartRestart, startGame, wbind. simpl.
    by destruct (restartGame_returns (set_gameStarted true w) s Hs)
      as (w1 & -> & _).
  - unfold handleUndo, undo.
    destruct (last (mementos w)) as [m|] eqn:Hlast; [|done].
    apply last_Some in Hlast as [ms Hms].
    destruct Hsound as [_ _ _ Hok]. rewrite Hms in Hok.
    apply Forall_app in Hok as [_ Hok]. apply Forall_inv in Hok.
    destruct Hok as [Hm _].
    destruct (lookup_lt_is_Some_2 _ _ Hm) as [saved Hsaved].
    by erewrite restore_spec.
  - done.
  - unfold handleStop, resetUI, wbind. simpl.
    by destruct (restartGame_returns (set_gameStarted false w) s Hs)
      as (w1 & -> & _).
Qed.

Lemma handlers_return_witness :
  (handle (CellClick "t" 3 (-4))
     (after initial_world [StartRestart; CellClick "t" 3 1])).1
  = Normal ().
Proof.
  exact (handlers_return [StartRestart; CellClick "t" 3 1]
           (CellClick "t" 3 (-4)) ltac:(simpl; lia)).
Defined.



(** ** Starting and stopping *)

Lemma gameStarted_on_state {A} (p : Prog A) w :
  gameStarted (on_state p w).2 = gameStarted w.
Proof.
  unfold on_state, on_object. destruct (heap w !! _); [|done].
  by destruct (run p _).
Qed.

Lemma gameStarted_restore m w : gameStarted (restore m w).2 = gameStarted w.
Proof.
  unfold restore, wbind, deref. destruct (heap w !! getState m); [|done].
  apply gameStarted_on_state.
Qed.

Lemma gameStarted_undo w : gameStarted (undo w).2 = gameStarted w.
Proof.
  unfold undo. destruct (last (mementos w)); [|done].
  by rewrite gameStarted_restore.
Qed.

Lemma gameStarted_resetUI w : gameStarted (resetUI w).2 = false.
Proof.
  unfold resetUI, wbind. cbn beta iota.
  pose proof (gameStarted_on_state
                (set_board (arr_copy <$> initialLayout (originator w)) ;;
                 set_selectedPeg None)%js (set_gameStarted false w)) as Hg.
  unfold restartGame.
  change (originator (set_gameStarted false w)) with (originator w).
  destruct (on_state _ (set_gameStarted false w)) as [[[]|] w1];
    simpl in *; done.
Qed.

Lemma handleCellClick_idle date r c w :
  gameStarted w = false → handleCellClick date r c w = (Normal (), w).
Proof. intros Hg. unfold handleCellClick. by rewrite Hg. Qed.

(** X11.  While no game is on, clicks on cells and the tutorial button
    change nothing at all; and whatever the gestures, only the start button
    turns a game on: without it [gameStarted] stays off, also through undo
    and stop. *)
Theorem idle_until_start w gs :
  gameStarted w = false →
  (Forall idle_gesture gs → after w gs = w) ∧
  (StartRestart ∉ gs → gameStarted (after w gs) = false).
Proof.
  intros Hoff. split.
  - intros Hidle. unfold after.
    induction Hidle as [|g gs Hg _ IH]; [done|]. cbn [foldl].
    destruct g; try done; cbn [handle].
    by rewrite handleCellClick_idle.
  - revert w Hoff. unfold after.
    induction gs as [|g gs IH]; intros w Hoff Hno; [done|]. cbn [foldl].
    apply not_elem_of_cons in Hno as [Hg Hno].
    apply IH; [|done].
    destruct g; try done; cbn [handle].
    + by rewrite handleCellClick_idle.
    + unfold handleUndo. by rewrite gameStarted_undo.
    + apply gameStarted_resetUI.
Qed.

Lemma idle_until_start_witness :
  let w := after initial_world [StartRestart; CellClick "t" 3 1; Stop] in
  (Forall idle_gesture [CellClick "t" 3 1; Tutorial] →
   after w [CellClick "t" 3 1; Tutorial] = w) ∧
  (StartRestart ∉ [CellClick "t" 3 1; Undo; Stop] →
   gameStarted (after w [CellClick "t" 3 1; Undo; Stop]) = false).
Proof.
  intros w.
  split; [exact (proj1 (idle_until_start w [CellClick "t" 3 1; Tutorial]
                          eq_refl))
         |exact (proj2 (idle_until_start w [CellClick "t" 3 1; Undo; Stop]
                          eq_refl))].
Defined.

(** X12.  In every world reached from the script as loaded, however the
    game went, the start button sets up the initial position again, with no
    selection and an empty history, and turns the game on; the stop button
    does the same and leaves the game off. *)
Theorem restart_resets qs :
  let w := reach qs in
  let started := (handle StartRestart w).2 in
  let stopped := (handle Stop w).2 in
  (heap started !! o_state (originator started)
   = Some (fresh_state initialBoardLayout) ∧
   mementos started = [] ∧ gameStarted started = true) ∧
  (heap stopped !! o_state (originator stopped)
   = Some (fresh_state initialBoardLayout) ∧
   mementos stopped = [] ∧ gameStarted stopped = false).
Proof.
  intros w. cbv zeta.
  pose proof (good_reach qs) as Hgood. fold w in Hgood.
  destruct (good_world_state _ w Hgood) as (s & Hs & _).
  pose proof (lookup_lt_Some _ _ _ Hs) as Hlt.
  destruct Hgood as [Hlayout _ _].
  assert (∀ g,
    let w1 := ((set_heap (<[o_state (originator w) :=
                            fresh_state initialBoardLayout]> (heap w))
                 (set_gameStarted g w))) in
    restartGame (set_gameStarted g w) = (Normal (), w1)) as Hrestart.
  { intros g. unfold restartGame.
    rewrite (on_state_spec _ _ s) by done. simpl. by rewrite Hlayout. }
  cbn [handle]. unfold handleStartRestart, startGame, handleStop, resetUI, wbind.
  cbn beta iota. rewrite !Hrestart. simpl.
  by rewrite !list_lookup_insert_eq.
Qed.

(** ** Undo on the page *)

(** X13.  In every world reached by gestures on the page, when a click is a
    move attempt (the game is on, a peg is selected, the clicked cell is
    empty), the undo button after it brings back the very state from before
    the click, board and selection, and the history from before it, whether
    the attempt made a move or was refused and changed nothing.  What undo
    does not bring back is the game itself: a game that the move has ended
    stays ended. *)
Theorem click_then_undo gs date r c s :
  let w := after initial_world gs in
  heap w !! o_state (originator w) = Some s →
  move_attempt w s r c = true →
  let w1 := after w [CellClick date r c] in
  let w2 := after w [CellClick date r c; Undo] in
  heap w2 !! o_state (originator w2) = Some s ∧
  mementos w2 = mementos w ∧
  gameStarted w2 = gameStarted w1.
Proof.
  intros w Hs Hattempt. cbv zeta.
  assert (sound_world initialBoardLayout w) as Hsound
    by (unfold w; rewrite after_reach; apply sound_reach).
  pose proof (lookup_lt_Some _ _ _ Hs) as Hlt.
  assert (sound_state initialBoardLayout s) as Hst.
  { destruct Hsound as [_ _ Hheap _].
    by apply (proj1 (Forall_lookup _ _) Hheap _ _ Hs). }
  unfold move_attempt in Hattempt.
  apply andb_prop in Hattempt as [Hattempt Hsel].
  apply andb_prop in Hattempt as [Hstarted Hempty].
  apply bool_decide_eq_true in Hempty.
  assert (is_Some (board_row (board s) r)) as [row Hrow].
  { unfold cell_at in Hempty.
    destruct (board_row (board s) r); [by eexists|done]. }
  destruct (selectCell_returns _ s r c (sound_good _ _ Hst)
              ltac:(by rewrite Hrow)) as (a & s1 & Hrun).
  unfold after. cbn [foldl handle].
  rewrite (handleCellClick_started _ _ _ _ _ Hs Hstarted), Hrow.
  unfold move_attempt. rewrite Hstarted.
  unfold is_empty. rewrite (bool_decide_eq_true_2 _ Hempty).
  rewrite Hsel. cbn [andb].
  assert (heap (after_backup date s w)
            !! o_state (originator (after_backup date s w)) = Some s) as Hs1
    by (simpl; by rewrite lookup_app_l).
  rewrite (click_selectCell_spec _ _ _ _ Hs1), Hrun. cbn [fst snd]. cbv zeta.
  set (w' := set_heap _ (after_backup date s w)).
  assert (∀ w2, heap w2 = heap w' → originator w2 = originator w →
                mementos w2 = mementos w' →
                heap (undo w2).2 !! o_state (originator (undo w2).2) = Some s ∧
                mementos (undo w2).2 = mementos w) as Hundo.
  { intros w2 Hh Ho Hm. unfold undo. rewrite Hm.
    cbn [mementos set_heap set_mementos w' after_backup].
    rewrite last_snoc, removelast_last.
    erewrite restore_spec; cycle 1.
    - unfold getState. simpl. rewrite Hh. simpl.
      rewrite list_lookup_insert_ne by lia.
      rewrite lookup_app_r by lia. by rewrite Nat.sub_diag.
    - simpl. rewrite Hh, Ho. simpl.
      rewrite list_lookup_insert_eq; [done|]. rewrite length_app. lia.
    - cbn [snd json_clone board selectedPeg].
      rewrite !(arr_copy_grid _ (sound_grid _ _ Hst)).
      simpl. rewrite Hh, Ho. simpl. split; [|done].
      rewrite list_lookup_insert_eq
        by (rewrite length_insert, length_app; lia).
      by destruct s. }
  unfold handleUndo. rewrite gameStarted_undo.
  destruct a; [| destruct (game_over (board s1)) |];
    (split; [|split; [|done]]); by apply Hundo.
Qed.

Lemma click_then_undo_witness :
  let gs := [StartRestart; CellClick "t0" 3 1] in
  let w := after initial_world gs in
  let w1 := after w [CellClick "t1" 3 3] in
  let w2 := after w [CellClick "t1" 3 3; Undo] in
  heap w2 !! o_state (originator w2) = Some selected_state ∧
  mementos w2 = mementos w ∧
  gameStarted w2 = gameStarted w1.
Proof.
  exact (click_then_undo [StartRestart; CellClick "t0" 3 1] "t1" 3 3
           selected_state eq_refl eq_refl).
Defined.

(** ** The label of a memento *)

(** X14.  The label of a memento taken by [save] is made of the date given
    to it and of the number of pegs that were on the board when it was
    taken, and it stays that way whatever is done to the live state
    afterwards. *)
Theorem getName_label w date s m w1 muts :
  heap w !! o_state (originator w) = Some s →
  save date w = (Normal m, w1) →
  getDate m = date ∧
  getName_text m (heap (foldl (λ w mu, mutate mu w) w1 muts))
  = Some (date +:+ " / (" +:+ pretty (countPegs (board s))
               +:+ " pegs left)").
Proof.
  intros Hs. rewrite (save_spec _ _ _ Hs). intros [= <- <-].
  pose proof (lookup_lt_Some _ _ _ Hs) as Hlt.
  split; [done|]. unfold getName_text, getName. cbn [m_state m_date].
  rewrite keeps_mutations; simpl; [| rewrite length_app; simpl; lia | lia].
  rewrite lookup_app_r by lia. rewrite Nat.sub_diag. simpl.
  by rewrite countPegs_copy.
Qed.

Lemma getName_label_witness :
  let w := initial_world in
  let date := "2026-01-01 00:00:00" in
  let muts := [ByRequest (ReqGesture StartRestart);
               ByRequest (ReqSelectCell 3 1);
               ByRequest (ReqSelectCell 3 3)] in
  let m := mkMemento 1%nat date in
  getDate m = date ∧
  getName_text m (heap (foldl (λ w mu, mutate mu w) (save date w).2 muts))
  = Some (date +:+ " / (" +:+ pretty (countPegs initialBoardLayout)
               +:+ " pegs left)").
Proof.
  exact (getName_label initial_world "2026-01-01 00:00:00"
           (fresh_state initialBoardLayout) _ _ _ eq_refl eq_refl).
Defined.

(** ** The timer *)

Lemma length_append (s1 s2 : string) :
  String.length (s1 +:+ s2) = (String.length s1 + String.length s2)%nat.
Proof. induction s1 as [|a s1 IH]; simpl; [done|by rewrite IH]. Qed.

Lemma padStart_short c s :
  String.length s = 1%nat → padStart 2 c s = String c s.
Proof. intros Hlen. unfold padStart. by rewrite Hlen. Qed.

Lemma padStart_long c s :
  (2 ≤ String.length s)%nat → padStart 2 c s = s.
Proof.
  intros Hlen. unfold padStart.
  by replace (2 - String.length s)%nat with 0%nat by lia.
Qed.

Lemma pretty_N_go_length x s :
  (String.length s ≤ String.length (pretty_N_go x s))%nat.
Proof.
  revert s. induction (N.lt_wf_0 x) as [x _ IH]; intros s.
  assert (x = 0 ∨ 0 < x)%N as [->|Hpos] by lia; [by rewrite pretty_N_go_0|].
  rewrite pretty_N_go_step by done.
  etrans; [|by eapply IH, N.div_lt]. simpl. lia.
Qed.

Lemma pretty_length_small (n : Z) :
  0 ≤ n < 10 → String.length (pretty n) = 1%nat.
Proof.
  intros Hn.
  assert (n = 0 ∨ n = 1 ∨ n = 2 ∨ n = 3 ∨ n = 4 ∨ n = 5 ∨ n = 6 ∨ n = 7
          ∨ n = 8 ∨ n = 9) as Hcases by lia.
  destruct_or!; by subst.
Qed.

Lemma pretty_length_large (n : Z) :
  10 ≤ n → (2 ≤ String.length (pretty n))%nat.
Proof.
  intros Hn. destruct n as [|p|p]; [lia| |lia].
  change (pretty (Z.pos p)) with (pretty (N.pos p)).
  unfold pretty, pretty_N. rewrite decide_False by done.
  rewrite 2!pretty_N_go_step by (try apply N.div_str_pos_iff; lia).
  etrans; [|apply pretty_N_go_length]. simpl. lia.
Qed.

Lemma pretty_length_two (n : Z) :
  10 ≤ n < 100 → String.length (pretty n) = 2%nat.
Proof.
  intros Hn.
  assert (forallb (λ k, String.length (pretty (Z.of_nat k)) =? 2)%nat
                  (seq 10 90) = true) as Hall by (vm_compute; reflexivity).
  rewrite forallb_forall in Hall.
  specialize (Hall (Z.to_nat n)). rewrite Z2Nat.id in Hall by lia.
  apply Nat.eqb_eq, Hall, in_seq. lia.
Qed.

Lemma padStart_two_digits (n : Z) :
  0 ≤ n → padStart 2 "0" (pretty n) = two_digits n.
Proof.
  intros Hn. unfold two_digits. case_decide.
  - by rewrite padStart_short by (apply pretty_length_small; lia).
  - by rewrite padStart_long by (apply pretty_length_large; lia).
Qed.

Lemma two_digits_length (n : Z) :
  0 ≤ n < 100 → String.length (two_digits n) = 2%nat.
Proof.
  intros Hn. unfold two_digits. case_decide.
  - by rewrite length_append, pretty_length_small by lia.
  - apply pretty_length_two. lia.
Qed.

(** X15.  When the clock has not gone back since the timer was started,
    the timer shows the whole minutes elapsed, a colon, and the seconds
    left over, each in decimal with a zero before a single digit: the
    seconds field always has two characters, and in the first hundred
    minutes the display has five. *)
Theorem updateTimer_format startTime now :
  startTime ≤ now →
  let elapsed := (now - startTime) / 1000 in
  updateTimer startTime now
  = two_digits (elapsed / 60) +:+ ":" +:+ two_digits (elapsed mod 60) ∧
  String.length (two_digits (elapsed mod 60)) = 2%nat ∧
  (elapsed < 6000 → String.length (updateTimer startTime now) = 5%nat).
Proof.
  intros Hle elapsed.
  assert (0 ≤ elapsed) as He by (apply Z.div_pos; lia).
  assert (0 ≤ elapsed / 60) as Hm by (apply Z.div_pos; lia).
  pose proof (Z.mod_pos_bound elapsed 60 ltac:(lia)) as Hsec.
  assert (updateTimer startTime now
          = two_digits (elapsed / 60) +:+ ":" +:+ two_digits (elapsed mod 60))
    as Htext.
  { unfold updateTimer. fold elapsed. cbv zeta.
    rewrite Z.rem_mod_nonneg by lia.
    by rewrite !padStart_two_digits by lia. }
  split; [done|]. split; [apply two_digits_length; lia|].
  intros Hshort. rewrite Htext, !length_append.
  rewrite !two_digits_length; [done|lia|].
  split; [done|]. apply Z.div_lt_upper_bound; lia.
Qed.

Lemma updateTimer_format_witness :
  let elapsed := (1700000754321 - 1700000000000) / 1000 in
  updateTimer 1700000000000 1700000754321
  = two_digits (elapsed / 60) +:+ ":" +:+ two_digits (elapsed mod 60) ∧
  String.length (two_digits (elapsed mod 60)) = 2%nat ∧
  (elapsed < 6000 →
   String.length (updateTimer 1700000000000 1700000754321) = 5%nat).
Proof.
  exact (updateTimer_format 1700000000000 1700000754321 ltac:(lia)).
Defined.
